(** * Disposable e-mail service: the CDK stack and the service it declares

    The repository is an AWS CDK application.  Its TypeScript constructs
    register resources (tables, a bucket, Lambda functions, an API
    gateway, a receipt rule set, a schedule) in a template, mutating
    objects that are shared between constructs (a function created by one
    construct receives grants and permissions from another).  The
    embedding keeps that shape: a construct is a computation in a small
    state monad over the template under synthesis.

    Three layers follow.
    - The constructs, translated from the TypeScript sources.
    - The meaning the platform gives to what they declare (primary keys,
      IAM policies, receipt-rule actions, schedules).
    - The handlers of the Lambda functions, whose Python sources are not
      part of the sources at hand; those are modelled from the
      specification and marked as such. *)

From Stdlib Require Import Ascii String DecimalString DecimalN DecimalPos.
From stdpp Require Import base option list gmap strings pretty fin_maps.

Local Open Scope string_scope.
Local Open Scope list_scope.

(** ** Constants (lib/constants.ts) *)

Record Constants := {
  HOSTED_ZONE_NAME : string;
  EMAIL_DOMAIN_NAME : string;
  FRONTEND_DOMAIN_NAME : string;
  MAILBOX_TTL : N;
}.

Definition CORS_ALLOWED_ORIGINS (c : Constants) : list string :=
  [ "https://" +:+ FRONTEND_DOMAIN_NAME c; "http://localhost:3000" ].

(** The values as committed: the three names are blanks to be filled in
    by whoever deploys the stack, the TTL is one day in seconds. *)
Definition constants : Constants := {|
  HOSTED_ZONE_NAME := "";
  EMAIL_DOMAIN_NAME := "";
  FRONTEND_DOMAIN_NAME := "";
  MAILBOX_TTL := 60 * 60 * 24;
|}.

(** [Number.MAX_SAFE_INTEGER]: up to it a number holds every integer
    exactly. *)
Definition MAX_SAFE_INTEGER : N := 9007199254740991.

(** [Number.prototype.toString] on a non-negative integer is its decimal
    notation as long as the number holds the integer exactly and is below
    1e21, where the exponent notation starts; [toString] stands for it up
    to [MAX_SAFE_INTEGER].  [join] is [Array.prototype.join]. *)
Definition toString (n : N) : string := NilZero.string_of_uint (N.to_uint n).

Fixpoint join (sep : string) (l : list string) : string :=
  match l with
  | [] => ""
  | [x] => x
  | x :: rest => x +:+ sep +:+ join sep rest
  end.

(** ** Resources and their properties *)

Inductive AttributeType := STRING | NUMBER | BINARY.
Inductive BillingMode := PAY_PER_REQUEST | PROVISIONED.
Inductive RemovalPolicy := DESTROY | RETAIN | SNAPSHOT.
Inductive BlockPublicAccess := BLOCK_ALL | BLOCK_ACLS.

Record Attribute := { name : string; type : AttributeType }.

Record Table := {
  tableName : string;
  partitionKey : Attribute;
  sortKey : option Attribute;
  billingMode : BillingMode;
  tableRemovalPolicy : RemovalPolicy;
}.

Record Bucket := {
  bucketName : string;
  bucketRemovalPolicy : RemovalPolicy;
  blockPublicAccess : BlockPublicAccess;
}.

Record Topic := { topicName : string; displayName : string }.

(** Durations are kept in seconds. *)
Module Duration.
Definition seconds (n : N) : N := n.
Definition minutes (n : N) : N := n * 60.
End Duration.

Inductive Runtime := PYTHON_3_9.
Inductive Architecture := ARM_64 | X86_64.

Record FunctionProps := {
  code : string;
  handler : string;
  runtime : Runtime;
  architecture : Architecture;
  timeout : option N;
  environment : list (string * string);
}.

Record LambdaFunction := { functionId : string; props : FunctionProps }.

(** IAM.  A statement lists action patterns and resource patterns; resource
    policies also name principals. *)
Inductive Arn :=
  | TableArn (table : string)
  | BucketArn (bucket : string)
  | ObjectsArn (bucket : string)          (* `${bucketArn}/*` *)
  | TopicArn (topic : string)
  | MethodArn (stage httpMethod : string) (path : list string)
  | AnyArn.                                (* "*" *)

Record PolicyStatement := {
  actions : list string;
  resources : list Arn;
  principals : list string;
}.

Record Permission := { principal : string; sourceArn : option Arn }.

(** SES receipt rules. *)
Inductive LambdaInvocationType := EVENT | REQUEST_RESPONSE.

Inductive ReceiptAction :=
  | ActionsLambda (function : string) (invocationType : LambdaInvocationType)
  | ActionsS3 (bucket : string) (topic : option string).

Record ReceiptRule := { recipients : list string; ruleActions : list ReceiptAction }.
Record ReceiptRuleSet := { rules : list ReceiptRule }.

(** EventBridge rules. *)
Inductive Target := TargetsLambdaFunction (function : string).

Record EventsRule := {
  ruleId : string;
  schedule : option string;          (* Schedule.expression *)
  eventPattern : option string;
  targets : list Target;
}.

(** API Gateway. *)
Inductive AuthorizationType := AuthNONE | AuthIAM | AuthCUSTOM | AuthCOGNITO.

Record CognitoUserPoolsAuthorizer := {
  authorizerId : string;
  cognitoUserPools : list string;
  resultsCacheTtl : N;
}.

Record MethodOptions := {
  authorizationType : option AuthorizationType;
  authorizer : option CognitoUserPoolsAuthorizer;
}.

Record CorsOptions := {
  allowOrigins : list string;
  allowMethods : list string;
  allowCredentials : bool;
}.

Inductive Integration :=
  | LambdaIntegration (function : string)
  | MockIntegration.

Record Method := {
  methodPath : list string;
  httpMethod : string;
  integration : Integration;
  methodAuthorizationType : AuthorizationType;
  methodAuthorizer : option CognitoUserPoolsAuthorizer;
}.

(** A resource handle remembers the defaults it inherits from the API. *)
Record Resource := {
  path : list string;
  defaultCorsPreflightOptions : option CorsOptions;
  defaultMethodOptions : option MethodOptions;
}.

Record UserPool := {
  userPoolName : string;
  selfSignUpEnabled : bool;
  minLength : N;
}.

(** ** The template under synthesis *)

Record Template := {
  tables : list Table;
  buckets : list Bucket;
  topics : list Topic;
  functions : list LambdaFunction;
  rolePolicies : list (string * PolicyStatement);     (* by function *)
  permissions : list (string * Permission);           (* by function *)
  eventSources : list (string * string);              (* topic, function *)
  resourcePolicies : list (Arn * PolicyStatement);    (* bucket and topic policies *)
  ruleSets : list ReceiptRuleSet;
  eventsRules : list EventsRule;
  userPools : list UserPool;
  methods : list Method;
}.

Definition emptyTemplate : Template :=
  {| tables := []; buckets := []; topics := []; functions := [];
     rolePolicies := []; permissions := []; eventSources := [];
     resourcePolicies := []; ruleSets := []; eventsRules := [];
     userPools := []; methods := [] |}.

Definition Build (A : Type) : Type := Template → A * Template.

#[export] Instance build_ret : MRet Build := λ A x t, (x, t).
#[export] Instance build_bind : MBind Build :=
  λ A B f m t, let '(a, t') := m t in f a t'.

Definition modify (f : Template → Template) : Build unit := λ t, (tt, f t).

Definition synth {A} (m : Build A) : Template := (m emptyTemplate).2.

Definition addTable (x : Table) : Build unit := modify (λ t,
  {| tables := tables t ++ [x]; buckets := buckets t; topics := topics t;
     functions := functions t; rolePolicies := rolePolicies t;
     permissions := permissions t; eventSources := eventSources t;
     resourcePolicies := resourcePolicies t; ruleSets := ruleSets t;
     eventsRules := eventsRules t; userPools := userPools t; methods := methods t |}).

Definition addBucket (x : Bucket) : Build unit := modify (λ t,
  {| tables := tables t; buckets := buckets t ++ [x]; topics := topics t;
     functions := functions t; rolePolicies := rolePolicies t;
     permissions := permissions t; eventSources := eventSources t;
     resourcePolicies := resourcePolicies t; ruleSets := ruleSets t;
     eventsRules := eventsRules t; userPools := userPools t; methods := methods t |}).

Definition addTopic (x : Topic) : Build unit := modify (λ t,
  {| tables := tables t; buckets := buckets t; topics := topics t ++ [x];
     functions := functions t; rolePolicies := rolePolicies t;
     permissions := permissions t; eventSources := eventSources t;
     resourcePolicies := resourcePolicies t; ruleSets := ruleSets t;
     eventsRules := eventsRules t; userPools := userPools t; methods := methods t |}).

Definition addFunction (x : LambdaFunction) : Build unit := modify (λ t,
  {| tables := tables t; buckets := buckets t; topics := topics t;
     functions := functions t ++ [x]; rolePolicies := rolePolicies t;
     permissions := permissions t; eventSources := eventSources t;
     resourcePolicies := resourcePolicies t; ruleSets := ruleSets t;
     eventsRules := eventsRules t; userPools := userPools t; methods := methods t |}).

Definition addRolePolicy (f : string) (s : PolicyStatement) : Build unit := modify (λ t,
  {| tables := tables t; buckets := buckets t; topics := topics t;
     functions := functions t; rolePolicies := rolePolicies t ++ [(f, s)];
     permissions := permissions t; eventSources := eventSources t;
     resourcePolicies := resourcePolicies t; ruleSets := ruleSets t;
     eventsRules := eventsRules t; userPools := userPools t; methods := methods t |}).

Definition addLambdaPermission (f : string) (p : Permission) : Build unit := modify (λ t,
  {| tables := tables t; buckets := buckets t; topics := topics t;
     functions := functions t; rolePolicies := rolePolicies t;
     permissions := permissions t ++ [(f, p)]; eventSources := eventSources t;
     resourcePolicies := resourcePolicies t; ruleSets := ruleSets t;
     eventsRules := eventsRules t; userPools := userPools t; methods := methods t |}).

Definition addSubscription (topic f : string) : Build unit := modify (λ t,
  {| tables := tables t; buckets := buckets t; topics := topics t;
     functions := functions t; rolePolicies := rolePolicies t;
     permissions := permissions t; eventSources := eventSources t ++ [(topic, f)];
     resourcePolicies := resourcePolicies t; ruleSets := ruleSets t;
     eventsRules := eventsRules t; userPools := userPools t; methods := methods t |}).

Definition addResourcePolicy (a : Arn) (s : PolicyStatement) : Build unit := modify (λ t,
  {| tables := tables t; buckets := buckets t; topics := topics t;
     functions := functions t; rolePolicies := rolePolicies t;
     permissions := permissions t; eventSources := eventSources t;
     resourcePolicies := resourcePolicies t ++ [(a, s)]; ruleSets := ruleSets t;
     eventsRules := eventsRules t; userPools := userPools t; methods := methods t |}).

Definition addRuleSet (x : ReceiptRuleSet) : Build unit := modify (λ t,
  {| tables := tables t; buckets := buckets t; topics := topics t;
     functions := functions t; rolePolicies := rolePolicies t;
     permissions := permissions t; eventSources := eventSources t;
     resourcePolicies := resourcePolicies t; ruleSets := ruleSets t ++ [x];
     eventsRules := eventsRules t; userPools := userPools t; methods := methods t |}).

Definition addEventsRule (x : EventsRule) : Build unit := modify (λ t,
  {| tables := tables t; buckets := buckets t; topics := topics t;
     functions := functions t; rolePolicies := rolePolicies t;
     permissions := permissions t; eventSources := eventSources t;
     resourcePolicies := resourcePolicies t; ruleSets := ruleSets t;
     eventsRules := eventsRules t ++ [x]; userPools := userPools t; methods := methods t |}).

Definition addUserPool (x : UserPool) : Build unit := modify (λ t,
  {| tables := tables t; buckets := buckets t; topics := topics t;
     functions := functions t; rolePolicies := rolePolicies t;
     permissions := permissions t; eventSources := eventSources t;
     resourcePolicies := resourcePolicies t; ruleSets := ruleSets t;
     eventsRules := eventsRules t; userPools := userPools t ++ [x]; methods := methods t |}).

Definition addApiMethod (x : Method) : Build unit := modify (λ t,
  {| tables := tables t; buckets := buckets t; topics := topics t;
     functions := functions t; rolePolicies := rolePolicies t;
     permissions := permissions t; eventSources := eventSources t;
     resourcePolicies := resourcePolicies t; ruleSets := ruleSets t;
     eventsRules := eventsRules t; userPools := userPools t; methods := methods t ++ [x] |}).

(** ** The library calls the constructs make (aws-cdk-lib)

    Only what the constructs below rely on.  The action lists are the
    ones the library's [grant*] methods attach. *)

Module DynamoDb.
Definition READ_DATA_ACTIONS : list string :=
  [ "dynamodb:BatchGetItem"; "dynamodb:GetRecords"; "dynamodb:GetShardIterator";
    "dynamodb:Query"; "dynamodb:GetItem"; "dynamodb:Scan";
    "dynamodb:ConditionCheckItem" ].
Definition WRITE_DATA_ACTIONS : list string :=
  [ "dynamodb:BatchWriteItem"; "dynamodb:PutItem"; "dynamodb:UpdateItem";
    "dynamodb:DeleteItem" ].
Definition DESCRIBE_TABLE : string := "dynamodb:DescribeTable".

Definition newTable (id : string) (pk : Attribute) (sk : option Attribute)
    (bm : BillingMode) (rp : RemovalPolicy) : Build Table :=
  let x := {| tableName := id; partitionKey := pk; sortKey := sk;
              billingMode := bm; tableRemovalPolicy := rp |} in
  addTable x;; mret x.

Definition grant (acts : list string) (x : Table) (f : LambdaFunction) : Build unit :=
  addRolePolicy (functionId f)
    {| actions := acts; resources := [TableArn (tableName x)]; principals := [] |}.

Definition grantReadData := grant (READ_DATA_ACTIONS ++ [DESCRIBE_TABLE]).
Definition grantWriteData := grant (WRITE_DATA_ACTIONS ++ [DESCRIBE_TABLE]).
Definition grantReadWriteData :=
  grant (READ_DATA_ACTIONS ++ WRITE_DATA_ACTIONS ++ [DESCRIBE_TABLE]).
End DynamoDb.

Module S3.
Definition BUCKET_READ_ACTIONS : list string :=
  [ "s3:GetObject*"; "s3:GetBucket*"; "s3:List*" ].
Definition BUCKET_PUT_ACTIONS : list string :=
  [ "s3:PutObject"; "s3:PutObjectLegalHold"; "s3:PutObjectRetention";
    "s3:PutObjectTagging"; "s3:PutObjectVersionTagging"; "s3:Abort*" ].
Definition BUCKET_DELETE_ACTIONS : list string := [ "s3:DeleteObject*" ].

Definition newBucket (id : string) (rp : RemovalPolicy) (bpa : BlockPublicAccess)
    : Build Bucket :=
  let x := {| bucketName := id; bucketRemovalPolicy := rp; blockPublicAccess := bpa |} in
  addBucket x;; mret x.

Definition grantRead (b : Bucket) (f : LambdaFunction) : Build unit :=
  addRolePolicy (functionId f)
    {| actions := BUCKET_READ_ACTIONS;
       resources := [BucketArn (bucketName b); ObjectsArn (bucketName b)];
       principals := [] |}.

Definition grantDelete (b : Bucket) (f : LambdaFunction) : Build unit :=
  addRolePolicy (functionId f)
    {| actions := BUCKET_DELETE_ACTIONS;
       resources := [ObjectsArn (bucketName b)]; principals := [] |}.

Definition grantReadWrite (b : Bucket) (f : LambdaFunction) : Build unit :=
  addRolePolicy (functionId f)
    {| actions := BUCKET_READ_ACTIONS ++ BUCKET_DELETE_ACTIONS ++ BUCKET_PUT_ACTIONS;
       resources := [BucketArn (bucketName b); ObjectsArn (bucketName b)];
       principals := [] |}.

Definition addToResourcePolicy (b : Bucket) (s : PolicyStatement) : Build unit :=
  addResourcePolicy (BucketArn (bucketName b)) s.
End S3.

Module Sns.
Definition newTopic (nm dn : string) : Build Topic :=
  let x := {| topicName := nm; displayName := dn |} in
  addTopic x;; mret x.
Definition addToResourcePolicy (x : Topic) (s : PolicyStatement) : Build unit :=
  addResourcePolicy (TopicArn (topicName x)) s.
End Sns.

Module Lambda.
(** The execution role the library creates for a function carries only
    the basic execution policy (log output); every other permission
    comes from a later grant. *)
Definition newFunction (id : string) (p : FunctionProps) : Build LambdaFunction :=
  let f := {| functionId := id; props := p |} in
  addFunction f;; mret f.

Definition addPermission (f : LambdaFunction) (p : Permission) : Build unit :=
  addLambdaPermission (functionId f) p.

Definition addToRolePolicy (f : LambdaFunction) (s : PolicyStatement) : Build unit :=
  addRolePolicy (functionId f) s.

(** [fn.addEventSource(new SnsEventSource(topic))] subscribes the function
    to the topic and lets the topic invoke it. *)
Definition addSnsEventSource (f : LambdaFunction) (x : Topic) : Build unit :=
  addSubscription (topicName x) (functionId f);;
  addLambdaPermission (functionId f)
    {| principal := "sns.amazonaws.com"; sourceArn := Some (TopicArn (topicName x)) |}.
End Lambda.

Module ApiGateway.
(** A resource created under an API with [defaultCorsPreflightOptions]
    gets an OPTIONS method answered by a mock integration, explicitly
    without authorization; so does the root. *)
Definition addCorsPreflight (r : Resource) : Build unit :=
  match defaultCorsPreflightOptions r with
  | Some _ =>
      addApiMethod {| methodPath := path r; httpMethod := "OPTIONS";
                      integration := MockIntegration;
                      methodAuthorizationType := AuthNONE;
                      methodAuthorizer := None |}
  | None => mret tt
  end.

Definition newRestApi (cors : option CorsOptions) (dmo : option MethodOptions)
    : Build Resource :=
  let root := {| path := []; defaultCorsPreflightOptions := cors;
                 defaultMethodOptions := dmo |} in
  addCorsPreflight root;; mret root.

Definition addResource (parent : Resource) (pathPart : string) : Build Resource :=
  let r := {| path := path parent ++ [pathPart];
              defaultCorsPreflightOptions := defaultCorsPreflightOptions parent;
              defaultMethodOptions := defaultMethodOptions parent |} in
  addCorsPreflight r;; mret r.

(** [pathForArn]: every path parameter, the text from an opening brace
    to the next closing one, becomes an asterisk; an opening brace that
    is never closed stays.  [pending] holds what was read since an
    opening brace. *)
Fixpoint replaceParameters (pending : option string) (s : string) : string :=
  match s, pending with
  | EmptyString, None => EmptyString
  | EmptyString, Some read => String "{" read
  | String ch rest, None =>
      if Ascii.eqb ch "{" then replaceParameters (Some EmptyString) rest
      else String ch (replaceParameters None rest)
  | String ch rest, Some read =>
      if Ascii.eqb ch "}" then String "*" (replaceParameters None rest)
      else replaceParameters (Some (read +:+ String ch EmptyString)) rest
  end.

Definition pathForArn (p : list string) : list string :=
  replaceParameters None <$> p.

(** The stage a deployed API gets when none is named, and the stage of
    test invocations from the console. *)
Definition deploymentStage : string := "prod".
Definition testInvokeStage : string := "test-invoke-stage".

(** [arnForExecuteApi]: the method ANY is written as an asterisk. *)
Definition arnForExecuteApi (verb : string) (p : list string) (stage : string) : Arn :=
  MethodArn stage (if String.eqb verb "ANY" then "*" else verb) p.

Definition methodArn (m : Method) : Arn :=
  arnForExecuteApi (httpMethod m) (pathForArn (methodPath m)) deploymentStage.

Definition testMethodArn (m : Method) : Arn :=
  arnForExecuteApi (httpMethod m) (pathForArn (methodPath m)) testInvokeStage.

(** The permissions that binding an integration to a method adds: a
    [LambdaIntegration] lets API Gateway invoke the function from the
    method in the deployed stage and, test invocation being allowed
    unless switched off, from the console. *)
Definition integrationPermissions (m : Method) : list (string * Permission) :=
  match integration m with
  | LambdaIntegration f =>
      [ (f, {| principal := "apigateway.amazonaws.com";
               sourceArn := Some (methodArn m) |});
        (f, {| principal := "apigateway.amazonaws.com";
               sourceArn := Some (testMethodArn m) |}) ]
  | MockIntegration => []
  end.

Fixpoint addPermissions (l : list (string * Permission)) : Build unit :=
  match l with
  | [] => mret tt
  | x :: rest => addLambdaPermission x.1 x.2;; addPermissions rest
  end.

(** [addMethod] without options of its own takes the authorization type
    and the authorizer from the resource's default method options, and
    binds the integration to the new method. *)
Definition addMethod (r : Resource) (verb : string) (i : Integration) : Build Method :=
  let dmo := defaultMethodOptions r in
  let m := {| methodPath := path r; httpMethod := verb; integration := i;
              methodAuthorizationType :=
                default AuthNONE (dmo ≫= authorizationType);
              methodAuthorizer := dmo ≫= authorizer |} in
  addApiMethod m;; addPermissions (integrationPermissions m);; mret m.
End ApiGateway.

Module Ses.
(** Binding a Lambda action lets SES invoke the function. *)
Fixpoint bindActions (l : list ReceiptAction) : Build unit :=
  match l with
  | [] => mret tt
  | ActionsLambda f _ :: rest =>
      addLambdaPermission f {| principal := "ses.amazonaws.com"; sourceArn := None |};;
      bindActions rest
  | ActionsS3 _ _ :: rest => bindActions rest
  end.

Definition newReceiptRuleSet (rs : list ReceiptRule) : Build unit :=
  bindActions (flat_map ruleActions rs);;
  addRuleSet {| rules := rs |}.
End Ses.

(** ** lib/Constructs/Storage.ts *)

Record StorageConstruct := {
  emailStorageBucket : Bucket;
  disposableAddressesTable : Table;
  disposableEmailsTable : Table;
  disposableReplyAddressesTable : Table;
}.

Definition newStorageConstruct : Build StorageConstruct :=
  addresses ← DynamoDb.newTable "disposableAddressesTable"
    {| name := "address"; type := STRING |} None
    PAY_PER_REQUEST DESTROY;
  emails ← DynamoDb.newTable "disposableEmailsTable"
    {| name := "destination"; type := STRING |}
    (Some {| name := "messageId"; type := STRING |})
    PAY_PER_REQUEST DESTROY;
  replies ← DynamoDb.newTable "disposableReplyAddressesTable"
    {| name := "proxyAddress"; type := STRING |} None
    PAY_PER_REQUEST DESTROY;
  bucket ← S3.newBucket "emailStorageBucket" DESTROY BLOCK_ALL;
  mret {| emailStorageBucket := bucket;
          disposableAddressesTable := addresses;
          disposableEmailsTable := emails;
          disposableReplyAddressesTable := replies |}.

(** ** lib/Constructs/DisposableEmailLambda.ts *)

Record LambdaConstructProps := {
  domain : string;
  mailboxTtl : N;
  corsAllowedOrigins : list string;
  storageConstruct : StorageConstruct;
  emailLambdaSnsTopic : Topic;
}.

Record DisposableEmailLambdaConstruct := {
  cleanUpLambda : LambdaFunction;
  createEmailLambda : LambdaFunction;
  getEmailFileLambda : LambdaFunction;
  getEmailsListLambda : LambdaFunction;
  incomingMailCheckLambda : LambdaFunction;
  storeEmailLambda : LambdaFunction;
  sendEmailLambda : LambdaFunction;
  changeAddressSettingsLambda : LambdaFunction;
}.

Definition newDisposableEmailLambdaConstruct (p : LambdaConstructProps)
    : Build DisposableEmailLambdaConstruct :=
  let st := storageConstruct p in
  let addressesName := tableName (disposableAddressesTable st) in
  let emailsName := tableName (disposableEmailsTable st) in
  let repliesName := tableName (disposableReplyAddressesTable st) in
  let bucket := bucketName (emailStorageBucket st) in
  (* incomingMailCheckLambda *)
  incomingMailCheck ← Lambda.newFunction "incomingMailCheckLambda"
    {| code := "src/IncomingMailCheckFunction/";
       handler := "IncomingMailCheckFunction.lambda_handler";
       runtime := PYTHON_3_9; architecture := ARM_64; timeout := None;
       environment :=
         [ ("addresses_table_name", addressesName);
           ("reply_addresses_table_name", repliesName) ] |};
  DynamoDb.grantReadData (disposableAddressesTable st) incomingMailCheck;;
  DynamoDb.grantReadData (disposableReplyAddressesTable st) incomingMailCheck;;
  Lambda.addPermission incomingMailCheck
    {| principal := "sns.amazonaws.com"; sourceArn := None |};;
  (* storeEmailLambda *)
  storeEmail ← Lambda.newFunction "StoreEmailLambda"
    {| code := "src/StoreEmailFunction/";
       handler := "StoreEmailFunction.lambda_handler";
       runtime := PYTHON_3_9; architecture := ARM_64;
       timeout := Some (Duration.minutes 5);
       environment :=
         [ ("valid_domains", domain p);
           ("addresses_table_name", addressesName);
           ("emails_table_name", emailsName);
           ("reply_addresses_table_name", repliesName);
           ("emails_bucket_name", bucket) ] |};
  DynamoDb.grantReadWriteData (disposableReplyAddressesTable st) storeEmail;;
  S3.grantReadWrite (emailStorageBucket st) storeEmail;;
  DynamoDb.grantWriteData (disposableEmailsTable st) storeEmail;;
  DynamoDb.grantReadData (disposableAddressesTable st) storeEmail;;
  Lambda.addSnsEventSource storeEmail (emailLambdaSnsTopic p);;
  Lambda.addToRolePolicy storeEmail
    {| actions := ["ses:SendRawEmail"]; resources := [AnyArn]; principals := [] |};;
  (* createEmailLambda *)
  createEmail ← Lambda.newFunction "createEmailLambda"
    {| code := "src/CreateEmailFunction/";
       handler := "CreateEmailFunction.lambda_handler";
       runtime := PYTHON_3_9; architecture := ARM_64; timeout := None;
       environment :=
         [ ("mailbox_ttl", toString (mailboxTtl p));
           ("valid_domains", domain p);
           ("cors_allowed_origins", join "," (corsAllowedOrigins p));
           ("addresses_table_name", addressesName) ] |};
  DynamoDb.grantReadWriteData (disposableAddressesTable st) createEmail;;
  (* getEmailsListLambda *)
  getEmailsList ← Lambda.newFunction "getEmailsListLambda"
    {| code := "src/GetEmailsListFunction/";
       handler := "GetEmailsListFunction.lambda_handler";
       runtime := PYTHON_3_9; architecture := ARM_64; timeout := None;
       environment :=
         [ ("cors_allowed_origins", join "," (corsAllowedOrigins p));
           ("emails_table_name", emailsName);
           ("addresses_table_name", addressesName) ] |};
  DynamoDb.grantReadData (disposableAddressesTable st) getEmailsList;;
  DynamoDb.grantReadData (disposableEmailsTable st) getEmailsList;;
  (* getEmailFileLambda *)
  getEmailFile ← Lambda.newFunction "getEmailFileLambda"
    {| code := "src/GetEmailFileFunction/";
       handler := "GetEmailFileFunction.lambda_handler";
       runtime := PYTHON_3_9; architecture := ARM_64; timeout := None;
       environment :=
         [ ("cors_allowed_origins", join "," (corsAllowedOrigins p));
           ("emails_table_name", emailsName);
           ("addresses_table_name", addressesName);
           ("emails_bucket_name", bucket) ] |};
  DynamoDb.grantReadWriteData (disposableEmailsTable st) getEmailFile;;
  DynamoDb.grantReadData (disposableAddressesTable st) getEmailFile;;
  S3.grantRead (emailStorageBucket st) getEmailFile;;
  (* cleanUpLambda *)
  cleanUp ← Lambda.newFunction "cleanUpLambda"
    {| code := "src/CleanUpFunction/";
       handler := "CleanUpFunction.lambda_handler";
       runtime := PYTHON_3_9; architecture := ARM_64;
       timeout := Some (Duration.minutes 1);
       environment :=
         [ ("addresses_table_name", addressesName);
           ("emails_table_name", emailsName);
           ("reply_addresses_table_name", repliesName);
           ("emails_bucket_name", bucket) ] |};
  DynamoDb.grantReadWriteData (disposableReplyAddressesTable st) cleanUp;;
  DynamoDb.grantReadWriteData (disposableAddressesTable st) cleanUp;;
  DynamoDb.grantReadWriteData (disposableEmailsTable st) cleanUp;;
  S3.grantDelete (emailStorageBucket st) cleanUp;;
  (* sendEmailLambda *)
  sendEmail ← Lambda.newFunction "sendEmailLambda"
    {| code := "src/SendEmailFunction/";
       handler := "SendEmailFunction.lambda_handler";
       runtime := PYTHON_3_9; architecture := ARM_64;
       timeout := Some (Duration.minutes 1);
       environment :=
         [ ("cors_allowed_origins", join "," (corsAllowedOrigins p));
           ("emails_table_name", emailsName);
           ("addresses_table_name", addressesName) ] |};
  DynamoDb.grantReadData (disposableAddressesTable st) sendEmail;;
  DynamoDb.grantReadData (disposableEmailsTable st) sendEmail;;
  Lambda.addToRolePolicy sendEmail
    {| actions := ["ses:SendRawEmail"]; resources := [AnyArn]; principals := [] |};;
  (* changeAddressSettingsLambda *)
  changeAddressSettings ← Lambda.newFunction "changeAddressSettingsLambda"
    {| code := "src/ChangeAddressSettingsFunction/";
       handler := "ChangeAddressSettingsFunction.lambda_handler";
       runtime := PYTHON_3_9; architecture := ARM_64; timeout := None;
       environment :=
         [ ("mailbox_ttl", toString (mailboxTtl p));
           ("cors_allowed_origins", join "," (corsAllowedOrigins p));
           ("addresses_table_name", addressesName) ] |};
  DynamoDb.grantReadWriteData (disposableAddressesTable st) changeAddressSettings;;
  mret {| cleanUpLambda := cleanUp; createEmailLambda := createEmail;
          getEmailFileLambda := getEmailFile; getEmailsListLambda := getEmailsList;
          incomingMailCheckLambda := incomingMailCheck; storeEmailLambda := storeEmail;
          sendEmailLambda := sendEmail;
          changeAddressSettingsLambda := changeAddressSettings |}.

(** ** lib/Constructs/AuthorisingApi.ts

    The user-pool client, the password policy beyond its minimum length
    and the name, description and endpoint type of the REST API play no
    part in routing or authorization and are left out. *)

Record ApiGatewayConstructProps := {
  apiCreateEmailLambda : LambdaFunction;
  apiGetEmailFileLambda : LambdaFunction;
  apiGetEmailsListLambda : LambdaFunction;
  apiSendEmailLambda : LambdaFunction;
  apiChangeAddressSettingsLambda : LambdaFunction;
}.

Definition cognitoAuthorizer : CognitoUserPoolsAuthorizer :=
  {| authorizerId := "cognitoAuthorizer";
     cognitoUserPools := ["disposable-email-user-pool"];
     resultsCacheTtl := Duration.seconds 0 |}.

Definition newAuthorisingApiConstruct (c : Constants) (p : ApiGatewayConstructProps)
    : Build unit :=
  addUserPool {| userPoolName := "disposable-email-user-pool";
                 selfSignUpEnabled := false; minLength := 6 |};;
  let authorizer := cognitoAuthorizer in
  root ← ApiGateway.newRestApi
    (Some {| allowOrigins := CORS_ALLOWED_ORIGINS c;
             allowMethods := ["GET"; "POST"; "OPTIONS"];
             allowCredentials := true |})
    (Some {| authorizationType := Some AuthCOGNITO;
             authorizer := Some authorizer |});
  create ← ApiGateway.addResource root "create";
  createEmailMethod ← ApiGateway.addMethod create "GET"
    (LambdaIntegration (functionId (apiCreateEmailLambda p)));
  destinationResource ← ApiGateway.addResource root "{destination}";
  listEmailsMethod ← ApiGateway.addMethod destinationResource "GET"
    (LambdaIntegration (functionId (apiGetEmailsListLambda p)));
  changeSettingsMethod ← ApiGateway.addMethod destinationResource "POST"
    (LambdaIntegration (functionId (apiChangeAddressSettingsLambda p)));
  messageResource ← ApiGateway.addResource destinationResource "{messageId}";
  getEmailMethod ← ApiGateway.addMethod messageResource "GET"
    (LambdaIntegration (functionId (apiGetEmailFileLambda p)));
  send ← ApiGateway.addResource root "send";
  sendEmailMethod ← ApiGateway.addMethod send "POST"
    (LambdaIntegration (functionId (apiSendEmailLambda p)));
  Lambda.addPermission (apiCreateEmailLambda p)
    {| principal := "apigateway.amazonaws.com";
       sourceArn := Some (ApiGateway.methodArn createEmailMethod) |};;
  Lambda.addPermission (apiGetEmailsListLambda p)
    {| principal := "apigateway.amazonaws.com";
       sourceArn := Some (ApiGateway.methodArn listEmailsMethod) |};;
  Lambda.addPermission (apiGetEmailFileLambda p)
    {| principal := "apigateway.amazonaws.com";
       sourceArn := Some (ApiGateway.methodArn getEmailMethod) |};;
  Lambda.addPermission (apiSendEmailLambda p)
    {| principal := "apigateway.amazonaws.com";
       sourceArn := Some (ApiGateway.methodArn sendEmailMethod) |};;
  Lambda.addPermission (apiChangeAddressSettingsLambda p)
    {| principal := "apigateway.amazonaws.com";
       sourceArn := Some (ApiGateway.methodArn changeSettingsMethod) |}.

(** ** lib/disposable-email-cdk-stack.ts

    The static front end (hosted zone lookup, site bucket, certificate,
    distribution) shares nothing with the mail service and is left out. *)

Definition newDisposableEmailCdkStack (c : Constants) : Build unit :=
  storage ← newStorageConstruct;
  emailNotificationTopic ← Sns.newTopic "disposable-email-notification-topic"
    "Disposable Email Notification Topic";
  Sns.addToResourcePolicy emailNotificationTopic
    {| actions := ["sns:Publish"];
       resources := [TopicArn (topicName emailNotificationTopic)];
       principals := ["ses.amazonaws.com"] |};;
  lambdas ← newDisposableEmailLambdaConstruct
    {| domain := EMAIL_DOMAIN_NAME c;
       mailboxTtl := MAILBOX_TTL c;
       corsAllowedOrigins := CORS_ALLOWED_ORIGINS c;
       storageConstruct := storage;
       emailLambdaSnsTopic := emailNotificationTopic |};
  newAuthorisingApiConstruct c
    {| apiCreateEmailLambda := createEmailLambda lambdas;
       apiGetEmailFileLambda := getEmailFileLambda lambdas;
       apiGetEmailsListLambda := getEmailsListLambda lambdas;
       apiSendEmailLambda := sendEmailLambda lambdas;
       apiChangeAddressSettingsLambda := changeAddressSettingsLambda lambdas |};;
  S3.addToResourcePolicy (emailStorageBucket storage)
    {| actions := ["s3:PutObject"];
       resources := [ObjectsArn (bucketName (emailStorageBucket storage))];
       principals := ["ses.amazonaws.com"] |};;
  Ses.newReceiptRuleSet
    [ {| recipients := [EMAIL_DOMAIN_NAME c];
         ruleActions :=
           [ ActionsLambda (functionId (incomingMailCheckLambda lambdas)) REQUEST_RESPONSE;
             ActionsS3 (bucketName (emailStorageBucket storage))
                       (Some (topicName emailNotificationTopic)) ] |} ];;
  addEventsRule
    {| ruleId := "cleanupRule";
       schedule := Some "rate(30 minutes)";
       eventPattern := None;
       targets := [TargetsLambdaFunction (functionId (cleanUpLambda lambdas))] |}.

Definition DisposableEmailCdkStack (c : Constants) : Template :=
  synth (newDisposableEmailCdkStack c).

Definition stack : Template := DisposableEmailCdkStack constants.

(** ** What the platform makes of the declarations *)

(** *** Tables with a primary key

    A table holds items; its key schema picks the primary key out of an
    item.  [putItem] creates a new item or replaces the one with the same
    primary key; [putItemIfAbsent] is the conditional write
    ([attribute_not_exists] on the key) that refuses instead. *)

Section KeyedTable.
Context {K V : Type} `{EqDecision K} (key : V → K).

Definition getItem (k : K) (rows : list V) : option V :=
  head (filter (λ v, key v = k) rows).

Definition deleteItem (k : K) (rows : list V) : list V :=
  filter (λ v, key v ≠ k) rows.

Definition putItem (v : V) (rows : list V) : list V :=
  deleteItem (key v) rows ++ [v].

Definition putItemIfAbsent (v : V) (rows : list V) : option (list V) :=
  match getItem (key v) rows with
  | Some _ => None
  | None => Some (rows ++ [v])
  end.

Definition updateItem (k : K) (f : V → V) (rows : list V) : list V :=
  (λ v, if decide (key v = k) then f v else v) <$> rows.

Definition keysUnique (rows : list V) : Prop := NoDup (key <$> rows).
End KeyedTable.

(** *** IAM

    An action pattern is matched literally, except that a final star
    matches any rest (the only wildcard the grants above use). *)

Fixpoint globMatch (pat s : string) : bool :=
  match pat with
  | EmptyString => match s with EmptyString => true | _ => false end
  | String c pat' =>
      match pat' with
      | EmptyString =>
          if Ascii.eqb c "*"%char then true
          else match s with
               | String d EmptyString => Ascii.eqb c d
               | _ => false
               end
      | _ =>
          match s with
          | String d s' => Ascii.eqb c d && globMatch pat' s'
          | EmptyString => false
          end
      end
  end.

Definition arnMatch (wanted pat : Arn) : bool :=
  match pat, wanted with
  | AnyArn, _ => true
  | TableArn a, TableArn b => String.eqb a b
  | BucketArn a, BucketArn b => String.eqb a b
  | ObjectsArn a, ObjectsArn b => String.eqb a b
  | TopicArn a, TopicArn b => String.eqb a b
  | _, _ => false
  end.

Definition statementAllows (s : PolicyStatement) (action : string) (on : Arn) : bool :=
  existsb (λ p, globMatch p action) (actions s) && existsb (arnMatch on) (resources s).

(** The identity policy of a function's execution role: the statements
    the grants attached to it. *)
Definition rolePolicy (t : Template) (f : string) : list PolicyStatement :=
  snd <$> filter (λ x, x.1 = f) (rolePolicies t).

(** A resource policy counts for a function when it names the function's
    role as a principal. *)
Definition roleOf (f : string) : string := f +:+ "/ServiceRole".

Definition resourcePolicyFor (t : Template) (f : string) : list PolicyStatement :=
  snd <$> filter (λ x, roleOf f ∈ principals x.2) (resourcePolicies t).

Definition grantedTo (t : Template) (f : string) : list PolicyStatement :=
  rolePolicy t f ++ resourcePolicyFor t f.

Definition permits (t : Template) (f : string) (action : string) (on : Arn) : bool :=
  existsb (λ s, statementAllows s action on) (grantedTo t f).

(** *** The storage a handler can reach, and the calls it can make *)

Definition Item := gmap string string.

Record Cloud := {
  tableData : gmap string (list Item);
  bucketData : gmap string (gmap string string);
}.

Definition PrimaryKey : Type := option string * option string.

(** The primary key a table's key schema gives to a row, for rows whose
    string attributes are read by [attr]. *)
Definition primaryKey {V} (attr : string → V → option string) (x : Table) (v : V)
    : PrimaryKey :=
  (attr (name (partitionKey x)) v, sortKey x ≫= λ a, attr (name a) v).

Definition itemKey (x : Table) (i : Item) : PrimaryKey :=
  primaryKey (λ a (j : Item), j !! a) x i.

Inductive Request :=
  | GetItem (table : string) (k : PrimaryKey)
  | Query (table : string) (pk : string)
  | Scan (table : string)
  | PutItem (table : string) (i : Item)
  | UpdateItem (table : string) (k : PrimaryKey) (attribute value : string)
  | DeleteItem (table : string) (k : PrimaryKey)
  | GetObject (bucket key : string)
  | PutObject (bucket key body : string)
  | DeleteObject (bucket key : string).

Inductive Response :=
  | AccessDenied
  | ResourceNotFound
  | ItemResponse (i : option Item)
  | ItemsResponse (l : list Item)
  | ObjectResponse (body : option string)
  | Done.

Definition requires (q : Request) : string * Arn :=
  match q with
  | GetItem x _ => ("dynamodb:GetItem", TableArn x)
  | Query x _ => ("dynamodb:Query", TableArn x)
  | Scan x => ("dynamodb:Scan", TableArn x)
  | PutItem x _ => ("dynamodb:PutItem", TableArn x)
  | UpdateItem x _ _ _ => ("dynamodb:UpdateItem", TableArn x)
  | DeleteItem x _ => ("dynamodb:DeleteItem", TableArn x)
  | GetObject b _ => ("s3:GetObject", ObjectsArn b)
  | PutObject b _ _ => ("s3:PutObject", ObjectsArn b)
  | DeleteObject b _ => ("s3:DeleteObject", ObjectsArn b)
  end.

(** The item that holds just the attributes of a primary key. *)
Definition keyItem (x : Table) (k : PrimaryKey) : Item :=
  let withPartition : Item :=
    match k.1 with
    | Some v => {[ name (partitionKey x) := v ]}
    | None => ∅
    end in
  match sortKey x, k.2 with
  | Some a, Some v => <[name a := v]> withPartition
  | _, _ => withPartition
  end.

Definition findTable (t : Template) (x : string) : option Table :=
  head (filter (λ y, tableName y = x) (tables t)).

Definition setTable (x : string) (rows : list Item) (c : Cloud) : Cloud :=
  {| tableData := <[x := rows]> (tableData c); bucketData := bucketData c |}.

Definition setBucket (b : string) (objs : gmap string string) (c : Cloud) : Cloud :=
  {| tableData := tableData c; bucketData := <[b := objs]> (bucketData c) |}.

Definition rowsOf (x : string) (c : Cloud) : list Item := default [] (tableData c !! x).
Definition objectsOf (b : string) (c : Cloud) : gmap string string :=
  default ∅ (bucketData c !! b).

(** The effect of an authorized call.  [PutItem] replaces the item with
    the same key; [UpdateItem] changes the item with the key, or creates
    it when there is none. *)
Definition serve (t : Template) (q : Request) (c : Cloud) : Response * Cloud :=
  match q with
  | GetItem x k =>
      match findTable t x with
      | Some s => (ItemResponse (getItem (itemKey s) k (rowsOf x c)), c)
      | None => (ResourceNotFound, c)
      end
  | Query x pk =>
      match findTable t x with
      | Some s => (ItemsResponse (filter (λ i, (itemKey s i).1 = Some pk) (rowsOf x c)), c)
      | None => (ResourceNotFound, c)
      end
  | Scan x => (ItemsResponse (rowsOf x c), c)
  | PutItem x i =>
      match findTable t x with
      | Some s => (Done, setTable x (putItem (itemKey s) i (rowsOf x c)) c)
      | None => (ResourceNotFound, c)
      end
  | UpdateItem x k a v =>
      match findTable t x with
      | Some s =>
          let rows := rowsOf x c in
          let rows' :=
            match getItem (itemKey s) k rows with
            | Some _ => updateItem (itemKey s) k (insert a v) rows
            | None => rows ++ [<[a := v]> (keyItem s k)]
            end in
          (Done, setTable x rows' c)
      | None => (ResourceNotFound, c)
      end
  | DeleteItem x k =>
      match findTable t x with
      | Some s => (Done, setTable x (deleteItem (itemKey s) k (rowsOf x c)) c)
      | None => (ResourceNotFound, c)
      end
  | GetObject b k => (ObjectResponse (objectsOf b c !! k), c)
  | PutObject b k body => (Done, setBucket b (<[k := body]> (objectsOf b c)) c)
  | DeleteObject b k => (Done, setBucket b (delete k (objectsOf b c)) c)
  end.

(** A call made by function [f]: refused unless its role permits it. *)
Definition call (t : Template) (f : string) (q : Request) (c : Cloud) : Response * Cloud :=
  let '(action, on) := requires q in
  if permits t f action on then serve t q c else (AccessDenied, c).

(** A handler is any program that makes calls and continues on their
    answers; nothing is assumed about the Python code behind it. *)
Inductive Handler (R : Type) :=
  | Return (r : R)
  | Call (q : Request) (k : Response → Handler R).
Arguments Return {R} r.
Arguments Call {R} q k.

Fixpoint runHandler {R} (t : Template) (f : string) (h : Handler R) (c : Cloud)
    : R * Cloud :=
  match h with
  | Return r => (r, c)
  | Call q k => let '(resp, c') := call t f q c in runHandler t f (k resp) c'
  end.

(** *** The gateway in front of a method

    A method with Cognito authorization forwards a request only when the
    user pool accepts the caller's token.  The authorizer keeps a verdict
    for [resultsCacheTtl] seconds; with a TTL of zero it keeps nothing. *)

Inductive Outcome := Unauthorized | Forwarded (i : Integration).

Definition AuthCache : Type := list (string * (N * bool)).

Definition cached (now : N) (tok : string) (cache : AuthCache) : option bool :=
  match snd <$> head (filter (λ e, e.1 = tok) cache) with
  | Some (expiry, verdict) => if (now <? expiry)%N then Some verdict else None
  | None => None
  end.

Definition authorize (a : CognitoUserPoolsAuthorizer) (pool : N → string → bool)
    (now : N) (tok : string) (cache : AuthCache) : bool * AuthCache :=
  match cached now tok cache with
  | Some verdict => (verdict, cache)
  | None =>
      let verdict := pool now tok in
      (verdict,
       if (resultsCacheTtl a =? 0)%N then cache
       else (tok, ((now + resultsCacheTtl a)%N, verdict)) :: cache)
  end.

Definition invokeMethod (m : Method) (pool : N → string → bool) (now : N)
    (tok : option string) (cache : AuthCache) : Outcome * AuthCache :=
  match methodAuthorizationType m with
  | AuthNONE => (Forwarded (integration m), cache)
  | AuthCOGNITO =>
      match methodAuthorizer m, tok with
      | Some a, Some tk =>
          let '(ok, cache') := authorize a pool now tk cache in
          (if ok then Forwarded (integration m) else Unauthorized, cache')
      | _, _ => (Unauthorized, cache)
      end
  | AuthIAM | AuthCUSTOM => (Unauthorized, cache)
  end.

(** The methods that reach a handler, and the handler behind each. *)
Definition isLambdaBacked (m : Method) : bool :=
  match integration m with LambdaIntegration _ => true | MockIntegration => false end.

Definition handlerMethods (t : Template) : list Method :=
  filter (λ m, isLambdaBacked m = true) (methods t).

Definition preflightMethods (t : Template) : list Method :=
  filter (λ m, isLambdaBacked m = false) (methods t).

Definition findFunction (t : Template) (f : string) : option LambdaFunction :=
  head (filter (λ x, functionId x = f) (functions t)).

Definition backingHandler (t : Template) (m : Method) : option string :=
  match integration m with
  | LambdaIntegration f => (λ x, handler (props x)) <$> findFunction t f
  | MockIntegration => None
  end.

Definition endpoints (t : Template) : list (string * list string * option string) :=
  (λ m, (httpMethod m, methodPath m, backingHandler t m)) <$> handlerMethods t.

(** *** Schedules

    [rate(value unit)] fires every [value] units. *)

Fixpoint stripPrefix (p s : string) : option string :=
  match p with
  | EmptyString => Some s
  | String c p' =>
      match s with
      | String d s' => if Ascii.eqb c d then stripPrefix p' s' else None
      | EmptyString => None
      end
  end.

Fixpoint splitAtSpace (s : string) : string * string :=
  match s with
  | EmptyString => (EmptyString, EmptyString)
  | String c rest =>
      if Ascii.eqb c " "%char then (EmptyString, rest)
      else let '(a, b) := splitAtSpace rest in (String c a, b)
  end.

Definition parseN (s : string) : option N :=
  N.of_uint <$> NilZero.uint_of_string s.

Definition unitSeconds (u : string) : option N :=
  if decide (u = "minute)" ∨ u = "minutes)") then Some 60%N
  else if decide (u = "hour)" ∨ u = "hours)") then Some 3600%N
  else if decide (u = "day)" ∨ u = "days)") then Some 86400%N
  else None.

(** The period of a rate expression, in seconds. *)
Definition parseRate (e : string) : option N :=
  body ← stripPrefix "rate(" e;
  let '(value, unit) := splitAtSpace body in
  n ← parseN value;
  u ← unitSeconds unit;
  Some (n * u)%N.

(** Whether the rule fires, [elapsed] seconds after it was enabled, given
    the event (if any) on the bus at that moment. *)
Definition due (r : EventsRule) (elapsed : N) (event : option string) : bool :=
  match schedule r with
  | Some e =>
      match parseRate e with
      | Some period => (0 <? period)%N && (elapsed mod period =? 0)%N
      | None => false
      end
  | None =>
      match eventPattern r, event with
      | Some p, Some ev => String.eqb p ev
      | _, _ => false
      end
  end.

(** *** Receiving mail

    The active rule set is run on every inbound message.  A rule applies
    when one of the message's recipients matches one of the rule's
    recipients (an address, a domain, or with a leading dot the
    subdomains of a domain); its actions run in the order listed.  A
    function invoked request-response answers with a disposition, and
    anything but [CONTINUE] ends the rule there; the answer of a function
    invoked as an event is not waited for.  The S3 action writes the
    message under its id and then publishes to the topic, which invokes
    the functions subscribed to it. *)

Record Message := {
  mailMessageId : string;
  mailSource : string;
  mailSubject : string;
  mailTimestamp : N;
  mailRecipients : list string;
  mailRaw : string;
}.

Inductive Disposition := CONTINUE | STOP_RULE | STOP_RULE_SET.

Inductive Event :=
  | LambdaInvoked (function : string) (how : LambdaInvocationType)
  | ObjectStored (bucket key : string)
  | Published (topic : string)
  | SendRawEmail (from to : string) (delivered : bool).

Fixpoint domainOf (addr : string) : string :=
  match addr with
  | EmptyString => EmptyString
  | String c rest => if Ascii.eqb c "@"%char then rest else domainOf rest
  end.

Fixpoint isSuffix (suffix s : string) : bool :=
  String.eqb suffix s ||
  match s with
  | EmptyString => false
  | String _ rest => isSuffix suffix rest
  end.

Definition recipientMatches (pat addr : string) : bool :=
  String.eqb pat addr
  || String.eqb pat (domainOf addr)
  || match pat with
     | String "."%char _ => isSuffix pat (domainOf addr)
     | _ => false
     end.

Definition applies (r : ReceiptRule) (m : Message) : bool :=
  match recipients r with
  | [] => true
  | pats => existsb (λ a, existsb (λ p, recipientMatches p a) pats) (mailRecipients m)
  end.

Section Receipt.
Context {W : Type}.
Variable deposit : string → string → string → W → W.
Variable onRequest : string → Message → W → Disposition * W.
Variable onEvent : string → Message → W → list Event * W.
Variable t : Template.

Definition subscribers (topic : string) : list string :=
  snd <$> filter (λ x, x.1 = topic) (eventSources t).

Fixpoint deliver (subs : list string) (m : Message) (w : W) : list Event * W :=
  match subs with
  | [] => ([], w)
  | f :: rest =>
      let '(e1, w1) := onEvent f m w in
      let '(e2, w2) := deliver rest m w1 in
      (LambdaInvoked f EVENT :: e1 ++ e2, w2)
  end.

Fixpoint runActions (l : list ReceiptAction) (m : Message) (w : W)
    : list Event * Disposition * W :=
  match l with
  | [] => ([], CONTINUE, w)
  | ActionsLambda f REQUEST_RESPONSE :: rest =>
      let '(d, w1) := onRequest f m w in
      match d with
      | CONTINUE =>
          let '(ev, d', w2) := runActions rest m w1 in
          (LambdaInvoked f REQUEST_RESPONSE :: ev, d', w2)
      | _ => ([LambdaInvoked f REQUEST_RESPONSE], d, w1)
      end
  | ActionsLambda f EVENT :: rest =>
      let '(e1, w1) := onEvent f m w in
      let '(ev, d', w2) := runActions rest m w1 in
      (LambdaInvoked f EVENT :: e1 ++ ev, d', w2)
  | ActionsS3 b topic :: rest =>
      let w1 := deposit b (mailMessageId m) (mailRaw m) w in
      let '(e1, w2) :=
        match topic with
        | Some x => let '(e, w') := deliver (subscribers x) m w1 in (Published x :: e, w')
        | None => ([], w1)
        end in
      let '(ev, d', w3) := runActions rest m w2 in
      (ObjectStored b (mailMessageId m) :: e1 ++ ev, d', w3)
  end.

Fixpoint runRules (rs : list ReceiptRule) (m : Message) (w : W) : list Event * W :=
  match rs with
  | [] => ([], w)
  | r :: rest =>
      if applies r m then
        let '(ev, d, w1) := runActions (ruleActions r) m w in
        match d with
        | STOP_RULE_SET => (ev, w1)
        | _ => let '(ev', w2) := runRules rest m w1 in (ev ++ ev', w2)
        end
      else runRules rest m w
  end.

Definition receive (m : Message) (w : W) : list Event * W :=
  runRules (flat_map rules (ruleSets t)) m w.
End Receipt.

(** A run of requests against one method, threading the authorizer's
    cache from one request to the next. *)
Fixpoint serveAll (m : Method) (pool : N → string → bool)
    (reqs : list (N * option string)) (cache : AuthCache) : list Outcome :=
  match reqs with
  | [] => []
  | (now, tok) :: rest =>
      let '(o, cache') := invokeMethod m pool now tok cache in
      o :: serveAll m pool rest cache'
  end.

(** What a check against the user pool at the moment of the request says. *)
Definition checkedNow (m : Method) (pool : N → string → bool)
    (req : N * option string) : Outcome :=
  match req.2 with
  | Some tk => if pool req.1 tk then Forwarded (integration m) else Unauthorized
  | None => Unauthorized
  end.

Definition addressedTo (dom : string) (m : Message) : Prop :=
  ∃ a, a ∈ mailRecipients m ∧ domainOf a = dom.

(** ** The service behind the functions

    The handlers named by the functions ([src/CreateEmailFunction/],
    [src/StoreEmailFunction/], [src/CleanUpFunction/], ...) are Python
    code outside the sources at hand.  What follows is the service as the
    specification describes it, over the tables and the bucket declared
    above. *)

(** Modelled from the spec: the error taxonomy of section 7; the handlers
    that raise them are missing. *)
Inductive Error := ValidationError | NotFound | Conflict | TransientStorageError.

(** Modelled from the spec: the Disposable Address record of section 3
    (the row type of the addresses table, which the declaration leaves
    open but for its key), with the deletion flag its lifecycle mentions. *)
Record DisposableAddress := {
  address : string;
  ownerToken : string;
  createdAt : N;
  expiresAt : N;
  deletionFlag : bool;
}.

(** Modelled from the spec: the Reply-Proxy Address record of section 3
    (the row type of the reply-addresses table). *)
Record ReplyProxyAddress := {
  proxyAddress : string;
  realExternalAddress : string;
  parentDisposableAddress : string;
}.

(** Modelled from the spec: the Stored Email record of section 3 (the row
    type of the e-mails table). *)
Record StoredEmail := {
  destination : string;
  messageId : string;
  sender : string;
  subject : string;
  receivedAt : N;
  rawContentRef : string;
}.

(** The tables as [Storage.ts] declares them. *)
Definition storage : StorageConstruct := (newStorageConstruct emptyTemplate).1.

(** Modelled from the spec: how the string attributes of the three row
    types are named in their tables (the attribute names of section 3;
    the key names are those of [Storage.ts]). *)
Definition addressAttr (a : string) (r : DisposableAddress) : option string :=
  if decide (a = "address") then Some (address r)
  else if decide (a = "ownerToken") then Some (ownerToken r)
  else None.

Definition replyAttr (a : string) (r : ReplyProxyAddress) : option string :=
  if decide (a = "proxyAddress") then Some (proxyAddress r)
  else if decide (a = "realExternalAddress") then Some (realExternalAddress r)
  else if decide (a = "parentDisposableAddress") then Some (parentDisposableAddress r)
  else None.

Definition emailAttr (a : string) (r : StoredEmail) : option string :=
  if decide (a = "destination") then Some (destination r)
  else if decide (a = "messageId") then Some (messageId r)
  else if decide (a = "sender") then Some (sender r)
  else if decide (a = "subject") then Some (subject r)
  else if decide (a = "rawContentRef") then Some (rawContentRef r)
  else None.

(** Modelled from the spec: the configuration surface of section 6 (the
    allowed domain and the default mailbox TTL); the handlers that read it
    are missing.  It is read from the environment variables the stack
    sets on the function. *)
Record Config := { cfgDomain : string; cfgMailboxTtl : N }.

Definition lookupEnv (k : string) (f : LambdaFunction) : option string :=
  snd <$> head (filter (λ kv, kv.1 = k) (environment (props f))).

Definition handlerConfig (t : Template) (f : string) : option Config :=
  x ← findFunction t f;
  d ← lookupEnv "valid_domains" x;
  ttl ← lookupEnv "mailbox_ttl" x ≫= parseN;
  Some {| cfgDomain := d; cfgMailboxTtl := ttl |}.

Module AddressRegistry.
(** The primary key of a record, by the key schema of the addresses
    table. *)
Definition key : DisposableAddress → PrimaryKey :=
  primaryKey addressAttr (disposableAddressesTable storage).
Definition keyOf (a : string) : PrimaryKey := (Some a, None).

(** Modelled from the spec: [get] of section 4.1; the handlers reading
    the addresses table are missing. *)
Definition get (a : string) (reg : list DisposableAddress)
    : Error + DisposableAddress :=
  match getItem key (keyOf a) reg with
  | Some r => inr r
  | None => inl NotFound
  end.

(** Modelled from the spec: the collision-free random local part of
    [create] (CreateEmailFunction is missing).  [draw i] is the i-th
    local part the random source yields; candidates are tried until one
    is not taken, one more time than there are records. *)
Definition candidate (cfg : Config) (draw : nat → string) (i : nat) : string :=
  draw i +:+ "@" +:+ cfgDomain cfg.

(** Modelled from the spec: the first candidate that is not taken. *)
Definition freshAddress (cfg : Config) (draw : nat → string)
    (reg : list DisposableAddress) : option string :=
  head (filter (λ a, getItem key (keyOf a) reg = None)
               (candidate cfg draw <$> seq 0 (S (length reg)))).

(** Modelled from the spec: [create] of section 4.1 (CreateEmailFunction
    is missing): a validation error unless the domain constraint is the
    configured domain; otherwise a fresh address expiring [mailboxTtl]
    after now is persisted and returned with all addresses of the
    owner. *)
Definition create (cfg : Config) (draw : nat → string) (now : N)
    (owner domainConstraint : string) (reg : list DisposableAddress)
    : (Error + DisposableAddress * list DisposableAddress) * list DisposableAddress :=
  if decide (domainConstraint = cfgDomain cfg) then
    match freshAddress cfg draw reg with
    | Some a =>
        let r := {| address := a; ownerToken := owner; createdAt := now;
                    expiresAt := (now + cfgMailboxTtl cfg)%N;
                    deletionFlag := false |} in
        let reg' := putItem key r reg in
        (inr (r, filter (λ x, ownerToken x = owner) reg'), reg')
    | None => (inl TransientStorageError, reg)
    end
  else (inl ValidationError, reg).

(** Modelled from the spec: the settings payload of [updateSettings],
    an optional extension of the TTL and a deletion mark. *)
Record Settings := { extendTtlBy : option N; markForDeletion : bool }.

(** Modelled from the spec: the effect of a settings payload on a
    record. *)
Definition applySettings (s : Settings) (r : DisposableAddress) : DisposableAddress :=
  {| address := address r; ownerToken := ownerToken r; createdAt := createdAt r;
     expiresAt := (expiresAt r + default 0 (extendTtlBy s))%N;
     deletionFlag := deletionFlag r || markForDeletion s |}.

(** Modelled from the spec: [updateSettings] of section 4.1
    (ChangeAddressSettingsFunction is missing): extends [expiresAt] or
    marks for deletion; [NotFound] when the address does not exist. *)
Definition updateSettings (a : string) (s : Settings) (reg : list DisposableAddress)
    : (Error + DisposableAddress) * list DisposableAddress :=
  match getItem key (keyOf a) reg with
  | Some r => (inr (applySettings s r), updateItem key (keyOf a) (applySettings s) reg)
  | None => (inl NotFound, reg)
  end.

(** Modelled from the spec: [listExpired] of section 4.1
    (CleanUpFunction is missing): the addresses with [expiresAt <= asOf]. *)
Definition listExpired (asOf : N) (reg : list DisposableAddress)
    : list DisposableAddress :=
  filter (λ r, (expiresAt r ≤ asOf)%N) reg.

(** Modelled from the spec: [delete] of section 4.1, idempotent. *)
Definition delete (a : string) (reg : list DisposableAddress) : list DisposableAddress :=
  deleteItem key (keyOf a) reg.

(** Modelled from the spec: the operations of section 4.1 that change
    the registry, and the states they reach from the empty one. *)
Inductive Op :=
  | Create (cfg : Config) (draw : nat → string) (now : N) (owner domainConstraint : string)
  | UpdateSettings (a : string) (s : Settings)
  | Delete (a : string).

Definition apply (o : Op) (reg : list DisposableAddress) : list DisposableAddress :=
  match o with
  | Create cfg draw now owner dc => (create cfg draw now owner dc reg).2
  | UpdateSettings a s => (updateSettings a s reg).2
  | Delete a => delete a reg
  end.

Inductive reachable : list DisposableAddress → Prop :=
  | reachable_empty : reachable []
  | reachable_step o reg : reachable reg → reachable (apply o reg).
End AddressRegistry.

Module ReplyProxyRegistry.
(** The primary key of a mapping, by the key schema of the
    reply-addresses table. *)
Definition key : ReplyProxyAddress → PrimaryKey :=
  primaryKey replyAttr (disposableReplyAddressesTable storage).
Definition keyOf (p : string) : PrimaryKey := (Some p, None).

(** Modelled from the spec: [resolve] of section 4.2
    (StoreEmailFunction is missing). *)
Definition resolve (p : string) (reg : list ReplyProxyAddress)
    : Error + ReplyProxyAddress :=
  match getItem key (keyOf p) reg with
  | Some r => inr r
  | None => inl NotFound
  end.

(** Modelled from the spec: [deleteByParent] of section 4.2
    (CleanUpFunction is missing): all mappings of the parent go. *)
Definition deleteByParent (parent : string) (reg : list ReplyProxyAddress)
    : list ReplyProxyAddress :=
  filter (λ r, parentDisposableAddress r ≠ parent) reg.
End ReplyProxyRegistry.

Module MailboxStore.
(** Modelled from the spec: the Mailbox Store of section 4.3 owns the
    Stored Email rows and the raw content they point to. *)
Record Store := { rows : list StoredEmail; blobs : gmap string string }.

Definition empty : Store := {| rows := []; blobs := ∅ |}.

(** The primary key of a row, by the key schema of the e-mails table. *)
Definition key : StoredEmail → PrimaryKey :=
  primaryKey emailAttr (disposableEmailsTable storage).
Definition keyOf (d mid : string) : PrimaryKey := (Some d, Some mid).

(** Modelled from the spec: [put] of section 4.3 (StoreEmailFunction is
    missing): [Conflict] when a row with the same destination and
    message id exists; otherwise the row is added and the raw content
    kept under the message id. *)
Definition put (d mid from subj : string) (at_ : N) (rawContent : string) (st : Store)
    : (Error + StoredEmail) * Store :=
  let r := {| destination := d; messageId := mid; sender := from; subject := subj;
              receivedAt := at_; rawContentRef := mid |} in
  match putItemIfAbsent key r (rows st) with
  | Some rows' => (inr r, {| rows := rows'; blobs := <[mid := rawContent]> (blobs st) |})
  | None => (inl Conflict, st)
  end.

(** Modelled from the spec: [getContent] of section 4.3
    (GetEmailFileFunction is missing). *)
Definition getContent (d mid : string) (st : Store) : Error + string :=
  match getItem key (keyOf d mid) (rows st) ≫= λ r, blobs st !! rawContentRef r with
  | Some body => inr body
  | None => inl NotFound
  end.

(** Modelled from the spec: the raw content the rows of a destination
    point to. *)
Definition refsOf (d : string) (l : list StoredEmail) : list string :=
  rawContentRef <$> filter (λ r, destination r = d) l.

(** Modelled from the spec: [deleteAll] of section 4.3 (CleanUpFunction
    is missing): the rows of the destination and their raw content go. *)
Definition deleteAll (d : string) (st : Store) : Store :=
  {| rows := filter (λ r, destination r ≠ d) (rows st);
     blobs := filter (λ kv, kv.1 ∉ refsOf d (rows st)) (blobs st) |}.

(** Modelled from the spec: the operations of section 4.3 that change
    the store, and the states they reach from the empty one. *)
Inductive Op :=
  | Put (d mid from subj : string) (at_ : N) (rawContent : string)
  | DeleteAll (d : string).

Definition apply (o : Op) (st : Store) : Store :=
  match o with
  | Put d mid from subj at_ raw => (put d mid from subj at_ raw st).2
  | DeleteAll d => deleteAll d st
  end.

Inductive reachable : Store → Prop :=
  | reachable_empty : reachable empty
  | reachable_step o st : reachable st → reachable (apply o st).
End MailboxStore.

(** Modelled from the spec: the state the components of section 2 own
    together. *)
Record World := {
  registry : list DisposableAddress;
  proxies : list ReplyProxyAddress;
  mailbox : MailboxStore.Store;
}.

Module Sweeper.
(** Modelled from the spec: the three deletions of section 4.6
    (CleanUpFunction is missing). *)
Inductive Step :=
  | DeleteMail (a : string)
  | DeleteProxies (a : string)
  | DeleteAddress (a : string).

#[global] Instance step_eq_dec : EqDecision Step.
Proof. solve_decision. Defined.

(** Modelled from the spec: each deletion is the operation of its
    component ([deleteAll], [deleteByParent], [delete]). *)
Definition exec (s : Step) (w : World) : World :=
  match s with
  | DeleteMail a =>
      {| registry := registry w; proxies := proxies w;
         mailbox := MailboxStore.deleteAll a (mailbox w) |}
  | DeleteProxies a =>
      {| registry := registry w;
         proxies := ReplyProxyRegistry.deleteByParent a (proxies w);
         mailbox := mailbox w |}
  | DeleteAddress a =>
      {| registry := AddressRegistry.delete a (registry w);
         proxies := proxies w; mailbox := mailbox w |}
  end.

Fixpoint run (l : list Step) (w : World) : World :=
  match l with
  | [] => w
  | s :: rest => run rest (exec s w)
  end.

(** Modelled from the spec: the cascade of section 4.6 for one expired
    address, in the order stated there. *)
Definition cascade (a : string) : list Step :=
  [DeleteMail a; DeleteProxies a; DeleteAddress a].

(** Modelled from the spec: the addresses [listExpired] reports, and
    the deletions a run makes for them, address by address. *)
Definition expired (asOf : N) (w : World) : list string :=
  address <$> AddressRegistry.listExpired asOf (registry w).

Definition plan (asOf : N) (w : World) : list Step :=
  flat_map cascade (expired asOf w).

(** Modelled from the spec: one run of the Retention Sweeper. *)
Definition sweep (asOf : N) (w : World) : World := run (plan asOf w) w.

(** Modelled from the spec: a run that crashes after [k] deletions
    (section 4.6, "a crash mid-sweep"). *)
Definition interrupted (k : nat) (asOf : N) (w : World) : World :=
  run (take k (plan asOf w)) w.

(** What a world holds of an address: the rows of its mail, the raw
    content that the rows it had in [before] point to, its proxy
    mappings and its records. *)
Definition mailOf (a : string) (w : World) : list StoredEmail :=
  filter (λ r, destination r = a) (MailboxStore.rows (mailbox w)).

Definition contentOf (a : string) (before w : World) : list string :=
  filter (λ ref, is_Some (MailboxStore.blobs (mailbox w) !! ref))
    (MailboxStore.refsOf a (MailboxStore.rows (mailbox before))).

Definition proxiesOf (a : string) (w : World) : list ReplyProxyAddress :=
  filter (λ r, parentDisposableAddress r = a) (proxies w).

Definition recordsOf (a : string) (w : World) : list DisposableAddress :=
  filter (λ r, address r = a) (registry w).
End Sweeper.

Module Pipeline.
(** Modelled from the spec: the transport's deposit of section 6, on the
    blob storage of the world (the one bucket the stack declares). *)
Definition deposit (bucket key body : string) (w : World) : World :=
  {| registry := registry w; proxies := proxies w;
     mailbox := {| MailboxStore.rows := MailboxStore.rows (mailbox w);
                   MailboxStore.blobs := <[key := body]> (MailboxStore.blobs (mailbox w)) |} |}.

(** Modelled from the spec: section 4.5 for one recipient
    (StoreEmailFunction is missing).  A live disposable address gets the
    mail stored, a conflict counting as done; a reply-proxy address gets
    it forwarded through the relay with the parent address as sender,
    and a failure of the relay is reported and changes nothing. *)
Definition processRecipient (relay : string → string → string → bool) (now : N)
    (m : Message) (rcpt : string) (w : World) : list Event * World :=
  match AddressRegistry.get rcpt (registry w) with
  | inr r =>
      if (now <? expiresAt r)%N then
        ([], {| registry := registry w; proxies := proxies w;
                mailbox := (MailboxStore.put rcpt (mailMessageId m) (mailSource m)
                              (mailSubject m) (mailTimestamp m) (mailRaw m)
                              (mailbox w)).2 |})
      else ([], w)
  | inl _ =>
      match ReplyProxyRegistry.resolve rcpt (proxies w) with
      | inr p =>
          let from := parentDisposableAddress p in
          let to := realExternalAddress p in
          ([SendRawEmail from to (relay from to (mailRaw m))], w)
      | inl _ => ([], w)
      end
  end.

(** Modelled from the spec: section 4.5 over the recipients in turn. *)
Fixpoint processAll (relay : string → string → string → bool) (now : N)
    (m : Message) (rcpts : list string) (w : World) : list Event * World :=
  match rcpts with
  | [] => ([], w)
  | r :: rest =>
      let '(e1, w1) := processRecipient relay now m r w in
      let '(e2, w2) := processAll relay now m rest w1 in
      (e1 ++ e2, w2)
  end.

(** Modelled from the spec: the Mail Storage Pipeline as the function
    subscribed to the notification topic. *)
Definition storeEmail (relay : string → string → string → bool) (now : N)
    (m : Message) (w : World) : list Event * World :=
  processAll relay now m (mailRecipients m) w.

(** The functions the topic can invoke: only the pipeline does
    anything. *)
Definition onEvent (relay : string → string → string → bool) (now : N)
    (f : string) (m : Message) (w : World) : list Event * World :=
  if decide (f = "StoreEmailLambda") then storeEmail relay now m w else ([], w).
End Pipeline.

(** ** Sample data

    A filled-in set of constants, a registry with one address past its
    expiry and one not, a reply-proxy mapping and a stored mail. *)

Definition sample_constants : Constants := {|
  HOSTED_ZONE_NAME := "example";
  EMAIL_DOMAIN_NAME := "mail.example";
  FRONTEND_DOMAIN_NAME := "mail.example";
  MAILBOX_TTL := 60 * 60 * 24;
|}.

Definition sample_config : Config :=
  {| cfgDomain := "mail.example"; cfgMailboxTtl := 86400 |}.

(** A random source that never repeats itself: the draws are the decimal
    numerals. *)
Definition sample_draw (i : nat) : string := pretty i.

Definition sample_world : World :=
  {| registry :=
       [ {| address := "a1@mail.example"; ownerToken := "owner-1"; createdAt := 1000;
            expiresAt := 4600; deletionFlag := false |};
         {| address := "a2@mail.example"; ownerToken := "owner-1"; createdAt := 2000;
            expiresAt := 9000; deletionFlag := false |} ];
     proxies :=
       [ {| proxyAddress := "p1@mail.example";
            realExternalAddress := "bob@elsewhere.example";
            parentDisposableAddress := "a1@mail.example" |} ];
     mailbox :=
       {| MailboxStore.rows :=
            [ {| destination := "a1@mail.example"; messageId := "m-1";
                 sender := "bob@elsewhere.example"; subject := "hello";
                 receivedAt := 1500; rawContentRef := "m-1" |} ];
          MailboxStore.blobs := {[ "m-1" := "raw-1" ]} |} |}.


Definition sample_message : Message :=
  {| mailMessageId := "m-9"; mailSource := "bob@elsewhere.example";
     mailSubject := "re: hello"; mailTimestamp := 3000;
     mailRecipients := ["p1@mail.example"]; mailRaw := "raw-9" |}.

Definition sample_registry : list DisposableAddress :=
  AddressRegistry.apply
    (AddressRegistry.Create sample_config sample_draw 1000 "owner-1" "mail.example") [].

Definition mailbox_after_one_put : MailboxStore.Store :=
  MailboxStore.apply
    (MailboxStore.Put "a1@mail.example" "m-1" "alice@elsewhere.example" "hello" 100 "raw-1")
    MailboxStore.empty.


(** ** Who can touch what

    The actions behind the calls a handler can make on a table, split by
    whether they change it. *)

Definition tableReadActions : list string :=
  [ "dynamodb:GetItem"; "dynamodb:Query"; "dynamodb:Scan" ].

Definition tableWriteActions : list string :=
  [ "dynamodb:PutItem"; "dynamodb:UpdateItem"; "dynamodb:DeleteItem" ].

(** The functions whose role holds a statement that allows [action] on
    the resource. *)
Definition allowedBy (t : Template) (action : string) (on : Arn) : list string :=
  fst <$> filter (λ x, statementAllows x.2 action on = true) (rolePolicies t).

(** Two states of the storage that differ at most in the tables [ht] and
    the buckets [hb]. *)
Definition agreeOutside (ht hb : list string) (c1 c2 : Cloud) : Prop :=
  (∀ x, x ∉ ht → rowsOf x c1 = rowsOf x c2)
  ∧ (∀ b, b ∉ hb → objectsOf b c1 = objectsOf b c2).

(** A function that is refused every reading call on the tables [ht] and
    the buckets [hb]. *)
Definition cannotRead (t : Template) (f : string) (ht hb : list string) : Prop :=
  (∀ x a, x ∈ ht → a ∈ tableReadActions → permits t f a (TableArn x) = false)
  ∧ (∀ b, b ∈ hb → permits t f "s3:GetObject" (ObjectsArn b) = false).

(** A program that asks for everything there is to know about stored
    mail and about reply addresses, and returns the answers. *)
Definition probe : Handler (list Response) :=
  Call (Scan "disposableEmailsTable") (λ r1,
  Call (GetObject "emailStorageBucket" "m-1") (λ r2,
  Call (Scan "disposableReplyAddressesTable") (λ r3,
  Return [r1; r2; r3]))).

Definition empty_cloud : Cloud := {| tableData := ∅; bucketData := ∅ |}.

(** ** What a function is told and what it is granted *)

(** The tables and the bucket a function's environment names. *)
Definition resourceVariables : list string :=
  [ "addresses_table_name"; "emails_table_name"; "reply_addresses_table_name";
    "emails_bucket_name" ].

Definition namedInEnvironment (x : LambdaFunction) : list string :=
  snd <$> filter (λ kv, kv.1 ∈ resourceVariables) (environment (props x)).

(** The tables and buckets the statements of a function's role cover. *)
Definition resourceName (a : Arn) : list string :=
  match a with
  | TableArn n | BucketArn n | ObjectsArn n => [n]
  | TopicArn _ | MethodArn _ _ _ | AnyArn => []
  end.

Definition grantedResources (t : Template) (f : string) : list string :=
  flat_map (λ s, flat_map resourceName (resources s)) (rolePolicy t f).


(** The value a function finds under a key of its environment. *)
Definition environmentOf (t : Template) (f key : string) : option string :=
  findFunction t f ≫= lookupEnv key.

Definition toldResources (t : Template) (f : string) : list string :=
  default [] (namedInEnvironment <$> findFunction t f).

Definition foreign_message : Message :=
  {| mailMessageId := "m-7"; mailSource := "bob@elsewhere.example";
     mailSubject := "hi"; mailTimestamp := 3000;
     mailRecipients := ["someone@other.example"; "root@sub.mail.example"];
     mailRaw := "raw-7" |}.

(** ** lib/Constructs/StaticWebpage.ts

    The front end: a private bucket read through an origin access
    identity, a certificate, a distribution, two alias records and a
    deployment of the static files.  The construct shares nothing with
    the rest of the stack, so it is kept as the record of what it creates. *)

Module StaticSite.
Inductive SecurityPolicyProtocol := TLS_V1_2_2021 | TLS_V1_2_2019 | TLS_V1.
Inductive ViewerProtocolPolicy := REDIRECT_TO_HTTPS | HTTPS_ONLY | ALLOW_ALL.
Inductive AllowedMethods := ALLOW_GET_HEAD | ALLOW_GET_HEAD_OPTIONS | ALLOW_ALL_METHODS.

Record StaticWebpageProps := {
  domain : string;
  hostedZone : string;
  staticFilesPath : string;
}.

Record OriginAccessIdentity := { comment : string }.

Record SiteBucket := {
  siteBucketId : string;
  siteBucketName : string;
  publicReadAccess : bool;
  siteBlockPublicAccess : BlockPublicAccess;
  siteRemovalPolicy : RemovalPolicy;
  autoDeleteObjects : bool;
}.

Record Certificate := {
  certificateId : string;
  domainName : string;
  subjectAlternativeNames : list string;
  certificateZone : string;
  region : string;
}.

Record ErrorResponse := {
  httpStatus : N;
  responseHttpStatus : N;
  responsePagePath : string;
  ttl : N;
}.

Record Behavior := {
  origin : SiteBucket;
  originAccessIdentity : OriginAccessIdentity;
  compress : bool;
  allowedMethods : AllowedMethods;
  viewerProtocolPolicy : ViewerProtocolPolicy;
}.

Record Distribution := {
  distributionId : string;
  distributionCertificate : Certificate;
  defaultRootObject : string;
  domainNames : list string;
  minimumProtocolVersion : SecurityPolicyProtocol;
  errorResponses : list ErrorResponse;
  defaultBehavior : Behavior;
}.

Record ARecord := {
  recordId : string;
  recordName : string;
  target : Distribution;
  zone : string;
}.

Record BucketDeployment := {
  deploymentId : string;
  sources : list string;
  destinationBucket : SiteBucket;
  deploymentDistribution : Distribution;
  distributionPaths : list string;
}.

Record StaticWebpage := {
  siteBucket : SiteBucket;
  siteBucketReaders : list OriginAccessIdentity;     (* siteBucket.grantRead *)
  distribution : Distribution;
  certificate : Certificate;
  records : list ARecord;
  deployment : BucketDeployment;
}.

Definition newStaticWebpage (p : StaticWebpageProps) : StaticWebpage :=
  let cfOai := {| comment := "OAI for " +:+ domain p +:+ " Cloudfront distribution" |} in
  let bucket :=
    {| siteBucketId := domain p +:+ "-SiteBucket";
       siteBucketName := domain p +:+ "-frontend";
       publicReadAccess := false;
       siteBlockPublicAccess := BLOCK_ALL;
       siteRemovalPolicy := DESTROY;
       autoDeleteObjects := true |} in
  let cert :=
    {| certificateId := domain p +:+ "-Certificate";
       domainName := domain p;
       subjectAlternativeNames := [ "www." +:+ domain p ];
       certificateZone := hostedZone p;
       region := "us-east-1" |} in
  let dist :=
    {| distributionId := "SiteDistribution";
       distributionCertificate := cert;
       defaultRootObject := "index.html";
       domainNames := [ domain p; "www." +:+ domain p ];
       minimumProtocolVersion := TLS_V1_2_2021;
       errorResponses :=
         [ {| httpStatus := 403; responseHttpStatus := 403;
              responsePagePath := "/error.html"; ttl := Duration.minutes 30 |} ];
       defaultBehavior :=
         {| origin := bucket; originAccessIdentity := cfOai; compress := true;
            allowedMethods := ALLOW_GET_HEAD_OPTIONS;
            viewerProtocolPolicy := REDIRECT_TO_HTTPS |} |} in
  {| siteBucket := bucket;
     siteBucketReaders := [cfOai];
     distribution := dist;
     certificate := cert;
     records :=
       [ {| recordId := domain p +:+ "-ARecord"; recordName := domain p;
            target := dist; zone := hostedZone p |};
         {| recordId := domain p +:+ "-AAliasRecord";
            recordName := "www." +:+ domain p;
            target := dist; zone := hostedZone p |} ];
     deployment :=
       {| deploymentId := domain p +:+ "-DeployWithInvalidation";
          sources := [ staticFilesPath p ];
          destinationBucket := bucket;
          deploymentDistribution := dist;
          distributionPaths := [ "/*" ] |} |}.

(** A certificate covers the name it is issued for and its alternative
    names; a distribution answers for its domain names; a name resolves
    to the distribution its alias record points at. *)
Definition covers (x : Certificate) (host : string) : bool :=
  String.eqb host (domainName x) || existsb (String.eqb host) (subjectAlternativeNames x).

Definition answersFor (d : Distribution) (host : string) : bool :=
  existsb (String.eqb host) (domainNames d).

Definition resolve (l : list ARecord) (host : string) : option Distribution :=
  target <$> head (filter (λ r, recordName r = host) l).
End StaticSite.

(** The front end as the stack creates it (the files are taken from
    [src/StaticWebsite/] next to the library). *)
Definition stackStaticWebpage (c : Constants) : StaticSite.StaticWebpage :=
  StaticSite.newStaticWebpage
    {| StaticSite.domain := FRONTEND_DOMAIN_NAME c;
       StaticSite.hostedZone := HOSTED_ZONE_NAME c;
       StaticSite.staticFilesPath := "../src/StaticWebsite/" |}.

(** ** Lists passed through the environment

    The stack hands lists over as text made with [join].  [splitOn] is
    not taken from the sources: it is the inverse that [join] is measured
    against, splitting at every separator (the empty text gives one empty
    piece, as with Python's [str.split] given a separator). *)

Fixpoint splitOn (sep : ascii) (s : string) : list string :=
  match s with
  | EmptyString => [EmptyString]
  | String ch rest =>
      if Ascii.eqb ch sep then EmptyString :: splitOn sep rest
      else match splitOn sep rest with
           | [] => [String ch EmptyString]
           | x :: xs => String ch x :: xs
           end
  end.

Fixpoint hasChar (ch : ascii) (s : string) : bool :=
  match s with
  | EmptyString => false
  | String a rest => Ascii.eqb a ch || hasChar ch rest
  end.

(** * The declarations, evaluated *)

Example stack_functions :
  functionId <$> functions stack =
    [ "incomingMailCheckLambda"; "StoreEmailLambda"; "createEmailLambda";
      "getEmailsListLambda"; "getEmailFileLambda"; "cleanUpLambda";
      "sendEmailLambda"; "changeAddressSettingsLambda" ].
Proof. reflexivity. Qed.

Example stack_tables :
  (λ x, (tableName x, name (partitionKey x), name <$> sortKey x)) <$> tables stack =
    [ ("disposableAddressesTable", "address", None);
      ("disposableEmailsTable", "destination", Some "messageId");
      ("disposableReplyAddressesTable", "proxyAddress", None) ].
Proof. reflexivity. Qed.

Example mailbox_ttl_in_environment :
  lookupEnv "mailbox_ttl" <$> findFunction stack "createEmailLambda" = Some (Some "86400").
Proof. reflexivity. Qed.

Example glob_final_star :
  globMatch "s3:GetObject*" "s3:GetObject" = true
  ∧ globMatch "s3:GetObject*" "s3:GetObjectAcl" = true
  ∧ globMatch "s3:PutObject" "s3:PutObjectAcl" = false
  ∧ globMatch "dynamodb:GetItem" "dynamodb:PutItem" = false.
Proof. repeat split. Qed.

Example pipeline_may_write_mail :
  permits stack "StoreEmailLambda" "dynamodb:PutItem" (TableArn "disposableEmailsTable") = true
  ∧ permits stack "StoreEmailLambda" "dynamodb:PutItem" (TableArn "disposableAddressesTable") = false
  ∧ permits stack "cleanUpLambda" "s3:DeleteObject" (ObjectsArn "emailStorageBucket") = true
  ∧ permits stack "incomingMailCheckLambda" "dynamodb:GetItem" (TableArn "disposableAddressesTable") = true.
Proof. repeat split. Qed.

Example filter_put_is_refused (cloud : Cloud) :
  call stack "incomingMailCheckLambda" (PutItem "disposableAddressesTable" ∅) cloud =
    (AccessDenied, cloud).
Proof. reflexivity. Qed.

Example rate_expressions :
  parseRate "rate(30 minutes)" = Some 1800%N
  ∧ parseRate "rate(1 hour)" = Some 3600%N
  ∧ parseRate "cron(0 12 * * ? *)" = None.
Proof. repeat split. Qed.

Example domain_recipient_matches :
  recipientMatches "mail.example" "a1@mail.example" = true
  ∧ recipientMatches "mail.example" "a1@other.example" = false
  ∧ recipientMatches ".example" "a1@mail.example" = true.
Proof. repeat split. Qed.

Example sample_registry_value :
  sample_registry =
    [ {| address := "0@mail.example"; ownerToken := "owner-1"; createdAt := 1000;
         expiresAt := 87400; deletionFlag := false |} ].
Proof. reflexivity. Qed.

Example sample_sweep :
  registry (Sweeper.sweep 5000 sample_world) =
    [ {| address := "a2@mail.example"; ownerToken := "owner-1"; createdAt := 2000;
         expiresAt := 9000; deletionFlag := false |} ]
  ∧ proxies (Sweeper.sweep 5000 sample_world) = []
  ∧ MailboxStore.rows (mailbox (Sweeper.sweep 5000 sample_world)) = []
  ∧ MailboxStore.blobs (mailbox (Sweeper.sweep 5000 sample_world)) !! "m-1" = None.
Proof. repeat split. Qed.

Example sample_put_twice :
  (MailboxStore.put "a1@mail.example" "m-1" "x@elsewhere.example" "again" 200 "raw-2"
     mailbox_after_one_put).1 = inl Conflict.
Proof. reflexivity. Qed.

(** * Properties of the declared infrastructure *)

(** ** Request API *)

(** C7. The gateway routes exactly five method/path pairs to a handler:
    GET create, GET {destination}, POST {destination},
    GET {destination}/{messageId} and POST send, each to one function of
    its own (address creation, mail listing, settings change, content
    retrieval, outbound send).  Every other method on the gateway is the
    CORS preflight OPTIONS of a resource, answered by a mock integration
    with no handler behind it. *)
Theorem api_endpoints_exactly_five (c : Constants) :
  let t := DisposableEmailCdkStack c in
  endpoints t =
    [ ("GET", ["create"], Some "CreateEmailFunction.lambda_handler");
      ("GET", ["{destination}"], Some "GetEmailsListFunction.lambda_handler");
      ("POST", ["{destination}"], Some "ChangeAddressSettingsFunction.lambda_handler");
      ("GET", ["{destination}"; "{messageId}"], Some "GetEmailFileFunction.lambda_handler");
      ("POST", ["send"], Some "SendEmailFunction.lambda_handler") ]
  ∧ NoDup (endpoints t).*2
  ∧ NoDup ((λ e, (e.1.1, e.1.2)) <$> endpoints t)
  ∧ (λ m, (httpMethod m, methodPath m, integration m)) <$> preflightMethods t =
      (λ p, ("OPTIONS", p, MockIntegration)) <$>
        [ []; ["create"]; ["{destination}"]; ["{destination}"; "{messageId}"]; ["send"] ]
  ∧ length (methods t) = length (endpoints t) + length (preflightMethods t).
Proof.
  cbv zeta. split; [reflexivity|].
  split; [apply (bool_decide_unpack _); vm_compute; exact I|].
  split; [apply (bool_decide_unpack _); vm_compute; exact I|].
  split; reflexivity.
Qed.

(** C10. Each of the five handler-backed methods carries Cognito
    authorization with the user-pool authorizer taken from the gateway's
    default method options; the authorizer keeps verdicts for zero
    seconds, so in any run of requests every one is checked against the
    user pool at the moment it arrives, and a request without a token the
    pool accepts does not reach the handler. *)
Theorem api_endpoints_authenticated (c : Constants) :
  let t := DisposableEmailCdkStack c in
  length (handlerMethods t) = 5
  ∧ Forall (λ m,
      methodAuthorizationType m = AuthCOGNITO
      ∧ methodAuthorizer m = Some cognitoAuthorizer
      ∧ resultsCacheTtl cognitoAuthorizer = 0%N
      ∧ ∀ pool reqs, serveAll m pool reqs [] = checkedNow m pool <$> reqs)
    (handlerMethods t).
Proof.
  cbv zeta. split; [reflexivity|].
  assert (Hrun : ∀ m, methodAuthorizationType m = AuthCOGNITO →
                      methodAuthorizer m = Some cognitoAuthorizer →
            ∀ pool reqs, serveAll m pool reqs [] = checkedNow m pool <$> reqs).
  { intros m Hty Hauth pool reqs.
    induction reqs as [|[now [tk|]] reqs IH]; simpl; [done| |].
    - unfold invokeMethod, checkedNow. rewrite Hty, Hauth. simpl.
      by rewrite IH.
    - unfold invokeMethod, checkedNow. rewrite Hty, Hauth. simpl.
      by rewrite IH. }
  let l := eval vm_compute in (handlerMethods (DisposableEmailCdkStack c)) in
  change (handlerMethods (DisposableEmailCdkStack c)) with l.
  repeat (apply Forall_cons; split;
          [split_and!; [reflexivity..|by apply Hrun]|]).
  apply Forall_nil_2.
Qed.

(** ** Retention Sweeper schedule *)

(** C8. The stack declares one EventBridge rule, targeting the clean-up
    function, whose schedule is the constant expression
    [rate(30 minutes)] and which has no event pattern: it is due exactly
    every 1800 seconds, whatever event or data is around. *)
Theorem cleanup_fixed_rate (c : Constants) :
  let t := DisposableEmailCdkStack c in
  eventsRules t =
    [ {| ruleId := "cleanupRule";
         schedule := Some "rate(30 minutes)";
         eventPattern := None;
         targets := [TargetsLambdaFunction "cleanUpLambda"] |} ]
  ∧ parseRate "rate(30 minutes)" = Some (Duration.minutes 30)
  ∧ Forall (λ r, ∀ elapsed event,
              due r elapsed event = (elapsed mod 1800 =? 0)%N) (eventsRules t).
Proof.
  cbv zeta. split; [reflexivity|]. split; [reflexivity|].
  apply Forall_cons; split; [|apply Forall_nil_2].
  intros elapsed event. reflexivity.
Qed.

(** ** Mail Intake Filter permissions *)

Lemma intake_filter_role (c : Constants) :
  grantedTo (DisposableEmailCdkStack c) "incomingMailCheckLambda" =
    [ {| actions := DynamoDb.READ_DATA_ACTIONS ++ [DynamoDb.DESCRIBE_TABLE];
         resources := [TableArn "disposableAddressesTable"]; principals := [] |};
      {| actions := DynamoDb.READ_DATA_ACTIONS ++ [DynamoDb.DESCRIBE_TABLE];
         resources := [TableArn "disposableReplyAddressesTable"]; principals := [] |} ].
Proof. reflexivity. Qed.

Lemma intake_filter_call_frame (c : Constants) (q : Request) (cloud : Cloud) :
  (call (DisposableEmailCdkStack c) "incomingMailCheckLambda" q cloud).2 = cloud.
Proof.
  unfold call, permits. rewrite intake_filter_role.
  destruct q; simpl; try reflexivity;
    repeat match goal with
           | |- context [if ?b then _ else _] => destruct b
           | |- context [match ?o with Some _ => _ | None => _ end] => destruct o
           end; reflexivity.
Qed.

(** C9. Whatever program runs as the Mail Intake Filter, and for whatever
    message, the tables and the bucket are the same after it as before:
    every call it makes either reads or is refused, because all it is
    granted are two statements, read access to the addresses table and to
    the reply-addresses table, neither of which matches a writing
    action. *)
Theorem intake_filter_frame (c : Constants) (h : Message → Handler Disposition)
    (m : Message) (cloud : Cloud) :
  let t := DisposableEmailCdkStack c in
  (runHandler t "incomingMailCheckLambda" (h m) cloud).2 = cloud
  ∧ grantedTo t "incomingMailCheckLambda" =
      [ {| actions := DynamoDb.READ_DATA_ACTIONS ++ [DynamoDb.DESCRIBE_TABLE];
           resources := [TableArn "disposableAddressesTable"]; principals := [] |};
        {| actions := DynamoDb.READ_DATA_ACTIONS ++ [DynamoDb.DESCRIBE_TABLE];
           resources := [TableArn "disposableReplyAddressesTable"]; principals := [] |} ]
  ∧ Forall (λ s, Forall (λ w, existsb (λ p, globMatch p w) (actions s) = false)
                   (DynamoDb.WRITE_DATA_ACTIONS ++ ["s3:PutObject"; "s3:DeleteObject"]))
      (grantedTo t "incomingMailCheckLambda").
Proof.
  cbv zeta. split; [|split; [apply intake_filter_role|]].
  - generalize (h m). clear h m. intros h. revert cloud.
    induction h as [r|q k IH]; intros cloud; simpl; [done|].
    pose proof (intake_filter_call_frame c q cloud) as Hq.
    destruct (call _ _ q cloud) as [resp cloud']. simpl in Hq. subst cloud'.
    apply IH.
  - rewrite intake_filter_role. repeat constructor.
Qed.

(** ** Inbound mail *)

Lemma receipt_rule_applies (c : Constants) (m : Message) :
  addressedTo (EMAIL_DOMAIN_NAME c) m →
  applies {| recipients := [EMAIL_DOMAIN_NAME c]; ruleActions := [] |} m = true.
Proof.
  intros (a & Hin & Hdom). unfold applies. simpl.
  apply existsb_exists. exists a. split; [by apply list_elem_of_In|].
  unfold recipientMatches. rewrite Hdom, String.eqb_refl.
  by rewrite orb_true_r.
Qed.

Section InboundFlow.
Context {W : Type}.
Variable deposit : string → string → string → W → W.
Variable onRequest : string → Message → W → Disposition * W.
Variable onEvent : string → Message → W → list Event * W.

(** The events of one inbound message, and the state it leaves, in
    terms of the filter's answer. *)
Lemma receive_unfold (c : Constants) (m : Message) (w : W) :
  addressedTo (EMAIL_DOMAIN_NAME c) m →
  receive deposit onRequest onEvent (DisposableEmailCdkStack c) m w =
    let w1 := (onRequest "incomingMailCheckLambda" m w).2 in
    let w2 := deposit "emailStorageBucket" (mailMessageId m) (mailRaw m) w1 in
    match (onRequest "incomingMailCheckLambda" m w).1 with
    | CONTINUE =>
        (LambdaInvoked "incomingMailCheckLambda" REQUEST_RESPONSE
           :: ObjectStored "emailStorageBucket" (mailMessageId m)
           :: Published "disposable-email-notification-topic"
           :: LambdaInvoked "StoreEmailLambda" EVENT
           :: (onEvent "StoreEmailLambda" m w2).1,
         (onEvent "StoreEmailLambda" m w2).2)
    | _ => ([LambdaInvoked "incomingMailCheckLambda" REQUEST_RESPONSE], w1)
    end.
Proof.
  intros Hto. apply receipt_rule_applies in Hto.
  assert (Hrules : flat_map rules (ruleSets (DisposableEmailCdkStack c)) =
    [ {| recipients := [EMAIL_DOMAIN_NAME c];
         ruleActions :=
           [ ActionsLambda "incomingMailCheckLambda" REQUEST_RESPONSE;
             ActionsS3 "emailStorageBucket"
                       (Some "disposable-email-notification-topic") ] |} ])
    by reflexivity.
  assert (Hsubs : subscribers (DisposableEmailCdkStack c)
                    "disposable-email-notification-topic" = ["StoreEmailLambda"])
    by reflexivity.
  unfold receive. rewrite Hrules. clear Hrules.
  generalize dependent (DisposableEmailCdkStack c). intros t Hsubs.
  cbn [runRules]. replace (applies _ m) with true by (symmetry; exact Hto).
  cbn [runActions ruleActions]. rewrite Hsubs. cbn [deliver].
  destruct (onRequest "incomingMailCheckLambda" m w) as [[| |] w1]; simpl; try reflexivity.
  destruct (onEvent "StoreEmailLambda" m _) as [ev w2]; simpl.
  by rewrite !app_nil_r.
Qed.
End InboundFlow.

(** C1. For a message addressed to the e-mail domain the first thing that
    happens is the request-response invocation of the Mail Intake Filter.
    When the filter answers [CONTINUE] the message is then written to the
    bucket, the topic is notified and the Mail Storage Pipeline is invoked,
    in that order.  When it answers anything else nothing follows: no
    object is written, nothing is published and the pipeline is not
    invoked. *)
Theorem intake_filter_gates_storage {W : Type}
    (deposit : string → string → string → W → W)
    (onRequest : string → Message → W → Disposition * W)
    (onEvent : string → Message → W → list Event * W)
    (c : Constants) (m : Message) (w : W) :
  addressedTo (EMAIL_DOMAIN_NAME c) m →
  let verdict := (onRequest "incomingMailCheckLambda" m w).1 in
  let w1 := (onRequest "incomingMailCheckLambda" m w).2 in
  let w2 := deposit "emailStorageBucket" (mailMessageId m) (mailRaw m) w1 in
  let run := receive deposit onRequest onEvent (DisposableEmailCdkStack c) m w in
  head run.1 = Some (LambdaInvoked "incomingMailCheckLambda" REQUEST_RESPONSE)
  ∧ (verdict = CONTINUE →
       run = (LambdaInvoked "incomingMailCheckLambda" REQUEST_RESPONSE
                :: ObjectStored "emailStorageBucket" (mailMessageId m)
                :: Published "disposable-email-notification-topic"
                :: LambdaInvoked "StoreEmailLambda" EVENT
                :: (onEvent "StoreEmailLambda" m w2).1,
              (onEvent "StoreEmailLambda" m w2).2))
  ∧ (verdict ≠ CONTINUE →
       run = ([LambdaInvoked "incomingMailCheckLambda" REQUEST_RESPONSE], w1)).
Proof.
  intros Hto. cbv zeta. rewrite (receive_unfold _ _ _ c m w Hto). cbv zeta.
  destruct (onRequest "incomingMailCheckLambda" m w) as [[| |] w1]; simpl;
    split_and!; try done.
Qed.

(** * Properties of the service *)

(** ** Tables with a primary key *)

Section KeyedTableFacts.
Context {K V : Type} `{EqDecision K} (key : V → K).
Implicit Types (k : K) (v : V) (rows : list V).

Lemma getItem_nil k : getItem key k [] = None.
Proof. reflexivity. Qed.

Lemma getItem_cons k v rows :
  getItem key k (v :: rows) =
    if decide (key v = k) then Some v else getItem key k rows.
Proof. unfold getItem. rewrite filter_cons. by case_decide. Qed.

Lemma getItem_Some k v rows : getItem key k rows = Some v → v ∈ rows ∧ key v = k.
Proof.
  induction rows as [|x rows IH]; [done|]. rewrite getItem_cons.
  case_decide; intros Hv.
  - inversion Hv; subst. split; [left|done].
  - destruct (IH Hv). split; [by right|done].
Qed.

Lemma getItem_None k rows : getItem key k rows = None ↔ ∀ v, v ∈ rows → key v ≠ k.
Proof.
  induction rows as [|x rows IH]; [split; [intros _ v Hv; inversion Hv|done]|].
  rewrite getItem_cons. case_decide as Hx.
  - split; [done|]. intros Hall. destruct (Hall x); [left|done].
  - rewrite IH. split.
    + intros Hall v Hv. inversion Hv; subst; auto.
    + intros Hall v Hv. apply Hall. by right.
Qed.

Lemma getItem_app k rows1 rows2 :
  getItem key k (rows1 ++ rows2) =
    match getItem key k rows1 with
    | Some v => Some v
    | None => getItem key k rows2
    end.
Proof. unfold getItem. by rewrite filter_app, head_app. Qed.

Lemma getItem_fmap k (g : V → V) rows :
  (∀ v, key (g v) = key v) →
  getItem key k (g <$> rows) = g <$> getItem key k rows.
Proof.
  intros Hg. induction rows as [|x rows IH]; [done|].
  csimpl. rewrite !getItem_cons, Hg. case_decide; [done|apply IH].
Qed.

Lemma deleteItem_id k rows : getItem key k rows = None → deleteItem key k rows = rows.
Proof.
  rewrite getItem_None. intros Hall. unfold deleteItem.
  induction rows as [|x rows IH]; [done|].
  rewrite filter_cons_True by (apply Hall; left).
  f_equal. apply IH. intros v Hv. apply Hall. by right.
Qed.

Lemma getItem_deleteItem k k' rows :
  getItem key k (deleteItem key k' rows) =
    if decide (k = k') then None else getItem key k rows.
Proof.
  unfold deleteItem. induction rows as [|x rows IH]; [by case_decide|].
  rewrite filter_cons, getItem_cons.
  destruct (decide (key x ≠ k')) as [Hx|Hx].
  - rewrite getItem_cons, IH. repeat case_decide; congruence.
  - rewrite IH. apply dec_stable in Hx. repeat case_decide; congruence.
Qed.

Lemma keysUnique_sublist rows rows' :
  rows' `sublist_of` rows → keysUnique key rows → keysUnique key rows'.
Proof.
  unfold keysUnique. intros Hsub Hu.
  eapply sublist_NoDup; [exact Hu|by apply fmap_sublist].
Qed.

Lemma keysUnique_deleteItem k rows :
  keysUnique key rows → keysUnique key (deleteItem key k rows).
Proof. apply keysUnique_sublist, sublist_filter. Qed.

Lemma keysUnique_snoc v rows :
  getItem key (key v) rows = None → keysUnique key rows → keysUnique key (rows ++ [v]).
Proof.
  rewrite getItem_None. intros Hfresh Hu. unfold keysUnique.
  rewrite fmap_app. apply NoDup_app. split; [done|]. split.
  - intros k Hk Hk'. apply list_elem_of_fmap in Hk as (x & -> & Hx).
    apply list_elem_of_singleton in Hk'. by apply (Hfresh x).
  - apply NoDup_singleton.
Qed.

Lemma keysUnique_putItem v rows :
  keysUnique key rows → keysUnique key (putItem key v rows).
Proof.
  intros Hu. apply keysUnique_snoc; [|by apply keysUnique_deleteItem].
  rewrite getItem_deleteItem. by case_decide.
Qed.

Lemma keysUnique_updateItem k (g : V → V) rows :
  (∀ v, key (g v) = key v) →
  keysUnique key rows → keysUnique key (updateItem key k g rows).
Proof.
  intros Hg. unfold keysUnique, updateItem.
  replace (key <$> ((λ v, if decide (key v = k) then g v else v) <$> rows))
    with (key <$> rows); [done|].
  induction rows as [|x rows IH]; [done|]. csimpl. rewrite <-IH.
  f_equal. case_decide; [by rewrite Hg|done].
Qed.


Lemma putItemIfAbsent_None v rows :
  putItemIfAbsent key v rows = None ↔ is_Some (getItem key (key v) rows).
Proof.
  unfold putItemIfAbsent. destruct (getItem key (key v) rows).
  - split; [by eauto|done].
  - split; [done|by intros [? [=]]].
Qed.
End KeyedTableFacts.

(** ** Mailbox Store *)








(** ** Address Registry *)

Lemma registry_key_eq (r : DisposableAddress) :
  AddressRegistry.key r = AddressRegistry.keyOf (address r).
Proof. reflexivity. Qed.

Lemma applySettings_key s r :
  AddressRegistry.key (AddressRegistry.applySettings s r) = AddressRegistry.key r.
Proof. reflexivity. Qed.

Lemma applySettings_expiresAt s r :
  (expiresAt r ≤ expiresAt (AddressRegistry.applySettings s r))%N.
Proof. simpl. lia. Qed.

Lemma freshAddress_fresh cfg draw reg a :
  AddressRegistry.freshAddress cfg draw reg = Some a →
  getItem AddressRegistry.key (AddressRegistry.keyOf a) reg = None
  ∧ ∃ i, a = AddressRegistry.candidate cfg draw i.
Proof.
  unfold AddressRegistry.freshAddress. intros Hhead.
  apply head_Some_elem_of in Hhead.
  apply list_elem_of_filter in Hhead as [Hfree Hin].
  apply list_elem_of_fmap in Hin as (i & -> & _). eauto.
Qed.

Lemma registry_addresses_unique (reg : list DisposableAddress) :
  keysUnique AddressRegistry.key reg → NoDup (address <$> reg).
Proof.
  unfold keysUnique. intros Hu.
  apply (NoDup_fmap_1 AddressRegistry.keyOf).
  by rewrite <-list_fmap_compose.
Qed.

Lemma registry_apply_keysUnique o (reg : list DisposableAddress) :
  keysUnique AddressRegistry.key reg →
  keysUnique AddressRegistry.key (AddressRegistry.apply o reg).
Proof.
  intros Hu. destruct o as [cfg draw now owner dc|a s|a]; simpl.
  - unfold AddressRegistry.create. case_decide; [|done].
    destruct (AddressRegistry.freshAddress cfg draw reg); [|done].
    by apply keysUnique_putItem.
  - unfold AddressRegistry.updateSettings.
    destruct (getItem _ _ reg); [|done].
    apply keysUnique_updateItem; [apply applySettings_key|done].
  - by apply keysUnique_deleteItem.
Qed.

Lemma registry_reachable_keysUnique (reg : list DisposableAddress) :
  AddressRegistry.reachable reg → keysUnique AddressRegistry.key reg.
Proof.
  induction 1 as [|o reg _ IH]; [apply NoDup_nil_2|].
  by apply registry_apply_keysUnique.
Qed.

Lemma registry_get_inr a reg r :
  AddressRegistry.get a reg = inr r ↔
  getItem AddressRegistry.key (AddressRegistry.keyOf a) reg = Some r.
Proof.
  unfold AddressRegistry.get. destruct (getItem _ _ reg); split; congruence.
Qed.

Lemma registry_apply_monotone o (reg : list DisposableAddress) a r r' :
  AddressRegistry.get a reg = inr r →
  AddressRegistry.get a (AddressRegistry.apply o reg) = inr r' →
  (expiresAt r ≤ expiresAt r')%N.
Proof.
  rewrite !registry_get_inr. intros Hr.
  assert (Hsame : getItem AddressRegistry.key (AddressRegistry.keyOf a) reg = Some r' →
                  (expiresAt r ≤ expiresAt r')%N).
  { rewrite Hr. intros [= <-]. lia. }
  destruct o as [cfg draw now owner dc|b s|b]; simpl.
  - unfold AddressRegistry.create. case_decide; [|exact Hsame].
    destruct (AddressRegistry.freshAddress cfg draw reg) as [n|] eqn:Hn;
      [|exact Hsame].
    apply freshAddress_fresh in Hn as [Hfree _]. simpl.
    unfold putItem. rewrite registry_key_eq. simpl.
    rewrite deleteItem_id by done.
    rewrite getItem_app, Hr. intros [= <-]. lia.
  - unfold AddressRegistry.updateSettings.
    destruct (getItem _ (AddressRegistry.keyOf b) reg); [|exact Hsame].
    simpl. unfold updateItem.
    rewrite (getItem_fmap AddressRegistry.key).
    + rewrite Hr. simpl. intros [= <-].
      case_decide; [apply applySettings_expiresAt|lia].
    + intros v. by case_decide.
  - unfold AddressRegistry.delete. rewrite getItem_deleteItem.
    case_decide; [done|]. exact Hsame.
Qed.

(** C5. In every state of the Address Registry reached by creations,
    settings changes and deletions, no two records share an address; and
    across any one of these operations a record that is there before and
    after has an [expiresAt] that did not decrease. *)
Theorem registry_unique_and_monotone (reg : list DisposableAddress)
    (o : AddressRegistry.Op) (a : string) (r r' : DisposableAddress) :
  AddressRegistry.reachable reg →
  NoDup (address <$> reg)
  ∧ NoDup (address <$> AddressRegistry.apply o reg)
  ∧ (AddressRegistry.get a reg = inr r →
     AddressRegistry.get a (AddressRegistry.apply o reg) = inr r' →
     (expiresAt r ≤ expiresAt r')%N).
Proof.
  intros Hreach. apply registry_reachable_keysUnique in Hreach as Hu.
  split_and!.
  - by apply registry_addresses_unique.
  - by apply registry_addresses_unique, registry_apply_keysUnique.
  - apply registry_apply_monotone.
Qed.

(** ** Address creation *)

Lemma string_length_app (s t : string) :
  String.length (s +:+ t) = String.length s + String.length t.
Proof. induction s as [|a s IH]; simpl; [done|by rewrite IH]. Qed.

Lemma string_app_inj_r (t s1 s2 : string) : s1 +:+ t = s2 +:+ t → s1 = s2.
Proof.
  revert s2. induction s1 as [|a s1 IH]; intros [|b s2] Heq.
  - done.
  - apply (f_equal String.length) in Heq.
    rewrite !string_length_app in Heq. simpl in Heq. lia.
  - apply (f_equal String.length) in Heq.
    rewrite !string_length_app in Heq. simpl in Heq. lia.
  - change (String a (s1 +:+ t) = String b (s2 +:+ t)) in Heq.
    injection Heq as -> Heq. f_equal. by apply IH.
Qed.

Lemma candidate_inj cfg (draw : nat → string) :
  Inj (=) (=) draw → Inj (=) (=) (AddressRegistry.candidate cfg draw).
Proof.
  intros Hinj i j Heq. unfold AddressRegistry.candidate in Heq.
  apply string_app_inj_r in Heq. by apply Hinj.
Qed.

(** Among one more distinct candidates than there are records, one is
    not taken. *)
Lemma freshAddress_is_Some cfg (draw : nat → string) (reg : list DisposableAddress) :
  Inj (=) (=) draw → is_Some (AddressRegistry.freshAddress cfg draw reg).
Proof.
  intros Hinj. unfold AddressRegistry.freshAddress.
  set (cands := AddressRegistry.candidate cfg draw <$> seq 0 (S (length reg))).
  destruct (head (filter _ cands)) as [a|] eqn:Hhead; [by eauto|exfalso].
  apply head_None in Hhead.
  assert (Hsub : ∀ a, a ∈ cands → a ∈ address <$> reg).
  { intros a Ha.
    destruct (getItem AddressRegistry.key (AddressRegistry.keyOf a) reg) as [r|] eqn:Hget.
    - apply getItem_Some in Hget as [Hr Hk].
      rewrite registry_key_eq in Hk. injection Hk as <-.
      apply list_elem_of_fmap. eauto.
    - assert (a ∈ filter (λ a, getItem AddressRegistry.key (AddressRegistry.keyOf a) reg = None) cands)
        as Hin by (by apply list_elem_of_filter).
      rewrite Hhead in Hin. inversion Hin. }
  assert (Hnd : NoDup cands).
  { apply NoDup_fmap_2; [by apply candidate_inj|apply NoDup_seq]. }
  pose proof (submseteq_length _ _ (NoDup_submseteq _ _ Hnd Hsub)) as Hlen.
  unfold cands in Hlen. rewrite !length_fmap, length_seq in Hlen. lia.
Qed.

Lemma parseN_toString (n : N) : parseN (toString n) = Some n.
Proof.
  unfold parseN, toString. rewrite NilZero.usu.
  - simpl. by rewrite DecimalN.Unsigned.of_to.
  - destruct n; [done|apply Unsigned.to_uint_nonnil].
Qed.

Lemma createEmail_function (c : Constants) :
  findFunction (DisposableEmailCdkStack c) "createEmailLambda" =
    Some {| functionId := "createEmailLambda";
            props := {| code := "src/CreateEmailFunction/";
                        handler := "CreateEmailFunction.lambda_handler";
                        runtime := PYTHON_3_9; architecture := ARM_64; timeout := None;
                        environment :=
                          [ ("mailbox_ttl", toString (MAILBOX_TTL c));
                            ("valid_domains", EMAIL_DOMAIN_NAME c);
                            ("cors_allowed_origins", join "," (CORS_ALLOWED_ORIGINS c));
                            ("addresses_table_name", "disposableAddressesTable") ] |} |}.
Proof. reflexivity. Qed.

Lemma createEmail_config (c : Constants) :
  handlerConfig (DisposableEmailCdkStack c) "createEmailLambda" =
    Some {| cfgDomain := EMAIL_DOMAIN_NAME c; cfgMailboxTtl := MAILBOX_TTL c |}.
Proof.
  unfold handlerConfig. rewrite createEmail_function. simpl.
  change (lookupEnv "valid_domains" _) with (Some (EMAIL_DOMAIN_NAME c)).
  change (lookupEnv "mailbox_ttl" _) with (Some (toString (MAILBOX_TTL c))).
  simpl. by rewrite parseN_toString.
Qed.

(** C6. With the configuration the stack hands to the address-creation
    function (the e-mail domain, and the mailbox TTL of the constants, a
    number that holds it exactly so that its text is its decimal
    notation), [create] under the configured domain returns: a record that was not
    in the registry and now is, whose address is a local part under that
    domain, whose [expiresAt] is [createdAt] plus the TTL, owned by the
    caller; and with it all the records the caller now owns. *)
Theorem create_returns_address (c : Constants) (draw : nat → string)
    (now : N) (owner domainConstraint : string) (reg : list DisposableAddress) :
  (MAILBOX_TTL c ≤ MAX_SAFE_INTEGER)%N →
  Inj (=) (=) draw →
  domainConstraint = EMAIL_DOMAIN_NAME c →
  ∃ cfg r reg',
    handlerConfig (DisposableEmailCdkStack c) "createEmailLambda" = Some cfg
    ∧ cfgMailboxTtl cfg = MAILBOX_TTL c
    ∧ AddressRegistry.create cfg draw now owner domainConstraint reg =
        (inr (r, filter (λ x, ownerToken x = owner) reg'), reg')
    ∧ (∃ i, address r = draw i +:+ "@" +:+ domainConstraint)
    ∧ createdAt r = now
    ∧ expiresAt r = (createdAt r + MAILBOX_TTL c)%N
    ∧ ownerToken r = owner
    ∧ AddressRegistry.get (address r) reg = inl NotFound
    ∧ AddressRegistry.get (address r) reg' = inr r
    ∧ r ∈ filter (λ x, ownerToken x = owner) reg'
    ∧ ∀ x, x ∈ reg → x ∈ reg'.
Proof.
  intros _ Hinj ->.
  set (cfg := {| cfgDomain := EMAIL_DOMAIN_NAME c; cfgMailboxTtl := MAILBOX_TTL c |}).
  destruct (freshAddress_is_Some cfg draw reg Hinj) as [a Ha].
  pose proof (freshAddress_fresh _ _ _ _ Ha) as [Hfree [i Hi]].
  set (r := {| address := a; ownerToken := owner; createdAt := now;
               expiresAt := (now + MAILBOX_TTL c)%N; deletionFlag := false |}).
  assert (Hput : putItem AddressRegistry.key r reg = reg ++ [r]).
  { unfold putItem. rewrite registry_key_eq. simpl. by rewrite deleteItem_id. }
  exists cfg, r, (reg ++ [r]). split_and!; try done.
  - apply createEmail_config.
  - unfold AddressRegistry.create. rewrite decide_True by done.
    rewrite Ha, <-Hput. reflexivity.
  - exists i. exact Hi.
  - unfold AddressRegistry.get. simpl. by rewrite Hfree.
  - unfold AddressRegistry.get. simpl. rewrite getItem_app, Hfree.
    rewrite getItem_cons, registry_key_eq. simpl. by rewrite decide_True.
  - apply list_elem_of_filter. split; [done|].
    apply elem_of_app. right. apply list_elem_of_here.
  - intros x Hx. apply elem_of_app. by left.
Qed.

(** ** Retention Sweeper *)

Lemma filter_twice {A} (P : A → Prop) `{!∀ x, Decision (P x)} (l : list A) :
  filter P (filter P l) = filter P l.
Proof. rewrite list_filter_filter. apply list_filter_iff. tauto. Qed.

Lemma filter_swap {A} (P Q : A → Prop) `{!∀ x, Decision (P x)} `{!∀ x, Decision (Q x)}
    (l : list A) :
  filter P (filter Q l) = filter Q (filter P l).
Proof. rewrite !list_filter_filter. apply list_filter_iff. tauto. Qed.

Lemma refsOf_deleted d (l : list StoredEmail) :
  MailboxStore.refsOf d (filter (λ r, destination r ≠ d) l) = [].
Proof.
  unfold MailboxStore.refsOf. induction l as [|x l IH]; [done|].
  destruct (decide (destination x = d)) as [Hx|Hx].
  - rewrite (filter_cons_False (λ r, destination r ≠ d)) by (intros ?; done).
    exact IH.
  - rewrite (filter_cons_True (λ r, destination r ≠ d)) by done.
    rewrite filter_cons_False by done. exact IH.
Qed.

Lemma refsOf_other a b (l : list StoredEmail) :
  a ≠ b →
  MailboxStore.refsOf a (filter (λ r, destination r ≠ b) l) = MailboxStore.refsOf a l.
Proof.
  intros Hab. unfold MailboxStore.refsOf. induction l as [|x l IH]; [done|].
  destruct (decide (destination x = b)) as [Hx|Hx].
  - rewrite (filter_cons_False (λ r, destination r ≠ b)) by (intros ?; done).
    rewrite (filter_cons_False (λ r, destination r = a)) by congruence.
    exact IH.
  - rewrite (filter_cons_True (λ r, destination r ≠ b)) by done.
    destruct (decide (destination x = a)) as [Hxa|Hxa].
    + rewrite !(filter_cons_True (λ r, destination r = a)) by done.
      csimpl. by rewrite IH.
    + rewrite !(filter_cons_False (λ r, destination r = a)) by done.
      exact IH.
Qed.

Lemma deleteAll_twice d (st : MailboxStore.Store) :
  MailboxStore.deleteAll d (MailboxStore.deleteAll d st) = MailboxStore.deleteAll d st.
Proof.
  unfold MailboxStore.deleteAll. simpl. f_equal.
  - apply filter_twice.
  - rewrite refsOf_deleted. apply map_filter_id.
    intros i x _. apply not_elem_of_nil.
Qed.

Lemma deleteAll_swap a b (st : MailboxStore.Store) :
  MailboxStore.deleteAll a (MailboxStore.deleteAll b st) =
  MailboxStore.deleteAll b (MailboxStore.deleteAll a st).
Proof.
  destruct (decide (a = b)) as [->|Hab]; [done|].
  unfold MailboxStore.deleteAll. simpl. f_equal.
  - apply filter_swap.
  - rewrite !refsOf_other by done. apply map_filter_comm.
Qed.

Lemma exec_twice (s : Sweeper.Step) (w : World) :
  Sweeper.exec s (Sweeper.exec s w) = Sweeper.exec s w.
Proof.
  destruct s as [a|a|a]; simpl; f_equal.
  - apply deleteAll_twice.
  - apply filter_twice.
  - apply filter_twice.
Qed.

Lemma exec_swap (s s' : Sweeper.Step) (w : World) :
  Sweeper.exec s (Sweeper.exec s' w) = Sweeper.exec s' (Sweeper.exec s w).
Proof.
  destruct s as [a|a|a], s' as [b|b|b]; simpl; try reflexivity; f_equal.
  - apply deleteAll_swap.
  - apply filter_swap.
  - apply filter_swap.
Qed.

Lemma run_app (l1 l2 : list Sweeper.Step) (w : World) :
  Sweeper.run (l1 ++ l2) w = Sweeper.run l2 (Sweeper.run l1 w).
Proof. revert w. induction l1 as [|s l1 IH]; intros w; simpl; [done|apply IH]. Qed.

Lemma exec_run_swap (s : Sweeper.Step) (l : list Sweeper.Step) (w : World) :
  Sweeper.exec s (Sweeper.run l w) = Sweeper.run l (Sweeper.exec s w).
Proof.
  revert w. induction l as [|x l IH]; intros w; simpl; [done|].
  by rewrite IH, exec_swap.
Qed.

(** A deletion the run will make anyway can be made first, or again
    afterwards, without changing where the run ends. *)
Lemma run_absorbs_earlier (s : Sweeper.Step) (l : list Sweeper.Step) (w : World) :
  s ∈ l → Sweeper.run l (Sweeper.exec s w) = Sweeper.run l w.
Proof.
  revert w. induction l as [|x l IH]; intros w Hin; [inversion Hin|].
  simpl. destruct (decide (s = x)) as [->|Hne].
  - by rewrite exec_twice.
  - rewrite exec_swap. apply IH. inversion Hin; by subst.
Qed.

Lemma run_absorbs_later (s : Sweeper.Step) (l : list Sweeper.Step) (w : World) :
  s ∈ l → Sweeper.exec s (Sweeper.run l w) = Sweeper.run l w.
Proof.
  intros Hin. rewrite exec_run_swap. by apply run_absorbs_earlier.
Qed.

Lemma run_same_steps (l1 l2 : list Sweeper.Step) (w : World) :
  (∀ s, s ∈ l1 ↔ s ∈ l2) → Sweeper.run l1 w = Sweeper.run l2 w.
Proof.
  intros Hsame.
  assert (Hlater : ∀ l, (∀ s, s ∈ l → s ∈ l1) →
            Sweeper.run l (Sweeper.run l1 w) = Sweeper.run l1 w).
  { induction l as [|s l IH]; intros Hsub; simpl; [done|].
    rewrite run_absorbs_later by (apply Hsub; left).
    apply IH. intros x Hx. apply Hsub. by right. }
  assert (Hearlier : ∀ l w', (∀ s, s ∈ l → s ∈ l2) →
            Sweeper.run l2 (Sweeper.run l w') = Sweeper.run l2 w').
  { induction l as [|s l IH]; intros w' Hsub; simpl; [done|].
    rewrite IH by (intros x Hx; apply Hsub; by right).
    apply run_absorbs_earlier, Hsub. left. }
  rewrite <-(Hlater l2) by (intros s; apply Hsame).
  apply Hearlier. intros s. apply Hsame.
Qed.

(** The registry during a run: a record stays until its own address is
    deleted, and nothing is added. *)
Lemma run_registry_keeps (l : list Sweeper.Step) (w : World) (r : DisposableAddress) :
  r ∈ registry w → Sweeper.DeleteAddress (address r) ∉ l →
  r ∈ registry (Sweeper.run l w).
Proof.
  revert w. induction l as [|s l IH]; intros w Hr Hnot; simpl; [done|].
  apply IH; [|intros Hin; apply Hnot; by right].
  destruct s as [a|a|a]; simpl; try done.
  apply list_elem_of_filter. split; [|done].
  rewrite registry_key_eq. intros [= Heq]. apply Hnot. rewrite Heq. left.
Qed.

Lemma run_registry_sub (l : list Sweeper.Step) (w : World) (r : DisposableAddress) :
  r ∈ registry (Sweeper.run l w) → r ∈ registry w.
Proof.
  revert w. induction l as [|s l IH]; intros w Hr; simpl in Hr; [done|].
  apply IH in Hr. destruct s as [a|a|a]; simpl in Hr; try done.
  by apply list_elem_of_filter in Hr as [_ Hr].
Qed.

Lemma run_registry_untouched (l : list Sweeper.Step) (w : World) :
  (∀ b, Sweeper.DeleteAddress b ∉ l) → registry (Sweeper.run l w) = registry w.
Proof.
  revert w. induction l as [|s l IH]; intros w Hnot; simpl; [done|].
  rewrite IH by (intros b Hb; apply (Hnot b); by right).
  destruct s as [a|a|a]; simpl; try done.
  destruct (Hnot a). left.
Qed.

Lemma elem_of_expired asOf (w : World) a :
  a ∈ Sweeper.expired asOf w ↔
  ∃ r, r ∈ registry w ∧ (expiresAt r ≤ asOf)%N ∧ address r = a.
Proof.
  unfold Sweeper.expired, AddressRegistry.listExpired.
  rewrite list_elem_of_fmap. split.
  - intros (r & -> & Hr). apply list_elem_of_filter in Hr as [Hexp Hr]. eauto.
  - intros (r & Hr & Hexp & <-). exists r. split; [done|].
    by apply list_elem_of_filter.
Qed.

Lemma elem_of_cascades (l : list string) (s : Sweeper.Step) :
  s ∈ flat_map Sweeper.cascade l ↔ ∃ a, a ∈ l ∧ s ∈ Sweeper.cascade a.
Proof.
  rewrite list_elem_of_In, in_flat_map. split.
  - intros (a & Ha & Hs). exists a. by rewrite !list_elem_of_In.
  - intros (a & Ha & Hs). exists a. by rewrite <-!list_elem_of_In.
Qed.

(** Within any prefix of the plan, the deletion of an address record comes
    with the deletions of its mail and of its proxy mappings before it. *)
Lemma prefix_cascade_complete (l : list string) (k : nat) (a : string) (s : Sweeper.Step) :
  Sweeper.DeleteAddress a ∈ take k (flat_map Sweeper.cascade l) →
  s ∈ Sweeper.cascade a →
  s ∈ take k (flat_map Sweeper.cascade l).
Proof.
  revert k. induction l as [|b l IH]; intros k Hin Hs.
  { simpl in Hin. rewrite take_nil in Hin. inversion Hin. }
  simpl in *.
  destruct k as [|[|[|k]]]; simpl in *.
  - inversion Hin.
  - apply list_elem_of_singleton in Hin. done.
  - rewrite !elem_of_cons in Hin. destruct Hin as [?|[?|Hin]]; [done|done|inversion Hin].
  - rewrite !elem_of_cons in Hin. destruct Hin as [?|[?|[[= <-]|Hin]]]; try done.
    + unfold Sweeper.cascade in Hs. rewrite !elem_of_cons in Hs |- *.
      destruct Hs as [->|[->|[->|Hs]]]; [auto..|inversion Hs].
    + rewrite !elem_of_cons. right. right. right. by apply IH.
Qed.

Lemma interrupted_then_sweep (asOf : N) (w : World) (k : nat) :
  Sweeper.sweep asOf (Sweeper.interrupted k asOf w) = Sweeper.sweep asOf w.
Proof.
  unfold Sweeper.sweep, Sweeper.interrupted.
  set (T := take k (Sweeper.plan asOf w)).
  rewrite <-run_app. apply run_same_steps. intros s.
  rewrite elem_of_app. unfold Sweeper.plan. rewrite !elem_of_cascades.
  split.
  - intros [Hs|(a & Ha & Hs)].
    + apply elem_of_take in Hs as (i & Hi & _).
      apply list_elem_of_lookup_2 in Hi.
      by apply elem_of_cascades in Hi.
    + exists a. split; [|done].
      apply elem_of_expired in Ha as (r & Hr & Hexp & <-).
      apply elem_of_expired. exists r. split; [|done].
      by apply run_registry_sub in Hr.
  - intros (a & Ha & Hs).
    destruct (decide (Sweeper.DeleteAddress a ∈ T)) as [Hdone|Hnot].
    + left. by apply (prefix_cascade_complete _ _ a).
    + right. exists a. split; [|done].
      apply elem_of_expired in Ha as (r & Hr & Hexp & <-).
      apply elem_of_expired. exists r. split; [|done].
      by apply run_registry_keeps.
Qed.

Lemma filter_none {A} (P Q : A → Prop) `{!∀ x, Decision (P x)} `{!∀ x, Decision (Q x)}
    (l : list A) :
  (∀ x, P x → Q x → False) → filter P (filter Q l) = [].
Proof.
  intros Hno. induction l as [|x l IH]; [done|].
  destruct (decide (Q x)) as [HQ|HQ].
  - rewrite (filter_cons_True Q) by done.
    rewrite filter_cons_False by (intros HP; exact (Hno x HP HQ)). exact IH.
  - rewrite (filter_cons_False Q) by done. exact IH.
Qed.

Lemma filter_is_nil {A} (P : A → Prop) `{!∀ x, Decision (P x)} (l : list A) :
  (∀ x, x ∈ l → ¬ P x) → filter P l = [].
Proof.
  intros Hno. induction l as [|x l IH]; [done|].
  rewrite filter_cons_False by (apply Hno; left).
  apply IH. intros y Hy. apply Hno. by right.
Qed.

Lemma plan_has_cascade (l : list string) (a : string) :
  a ∈ l →
  ∃ before after, flat_map Sweeper.cascade l = before ++ Sweeper.cascade a ++ after.
Proof.
  intros Ha. apply list_elem_of_split in Ha as (l1 & l2 & ->).
  exists (flat_map Sweeper.cascade l1), (flat_map Sweeper.cascade l2).
  by rewrite flat_map_app.
Qed.

Lemma run_blobs_sub (l : list Sweeper.Step) (w : World) (i x : string) :
  MailboxStore.blobs (mailbox (Sweeper.run l w)) !! i = Some x →
  MailboxStore.blobs (mailbox w) !! i = Some x.
Proof.
  revert w. induction l as [|s l IH]; intros w H; simpl in H; [done|].
  apply IH in H. destruct s as [a|a|a]; simpl in H; try done.
  by apply map_lookup_filter_Some in H as [H _].
Qed.

Lemma contentOf_deleted (a : string) (w : World) (l : list Sweeper.Step) :
  Sweeper.contentOf a w (Sweeper.run l (Sweeper.exec (Sweeper.DeleteMail a) w)) = [].
Proof.
  apply filter_is_nil. intros ref Href [x Hx].
  apply run_blobs_sub in Hx. simpl in Hx.
  apply map_lookup_filter_Some in Hx as [_ Hx]. by apply Hx.
Qed.

Lemma mailOf_deleted (a : string) (w : World) :
  Sweeper.mailOf a (Sweeper.exec (Sweeper.DeleteMail a) w) = [].
Proof. unfold Sweeper.mailOf. simpl. apply filter_none. intros x H1 H2. done. Qed.

Lemma proxiesOf_deleted (a : string) (w : World) :
  Sweeper.proxiesOf a (Sweeper.exec (Sweeper.DeleteProxies a) w) = [].
Proof. unfold Sweeper.proxiesOf. simpl. apply filter_none. intros x H1 H2. done. Qed.

Lemma recordsOf_deleted (a : string) (w : World) :
  Sweeper.recordsOf a (Sweeper.exec (Sweeper.DeleteAddress a) w) = [].
Proof.
  unfold Sweeper.recordsOf. simpl. unfold AddressRegistry.delete, deleteItem.
  apply filter_none. intros x H1 H2. apply H2. rewrite registry_key_eq. by rewrite H1.
Qed.

(** What a sweep leaves of an address it reported expired: nothing. *)
Lemma sweep_leaves_nothing (asOf : N) (w : World) (a : string) :
  a ∈ Sweeper.expired asOf w →
  let done := Sweeper.sweep asOf w in
  Sweeper.mailOf a done = [] ∧ Sweeper.contentOf a w done = []
  ∧ Sweeper.proxiesOf a done = [] ∧ Sweeper.recordsOf a done = [].
Proof.
  intros Ha. cbv zeta. unfold Sweeper.sweep.
  assert (Hin : ∀ s, s ∈ Sweeper.cascade a → s ∈ Sweeper.plan asOf w).
  { intros s Hs. apply elem_of_cascades. eauto. }
  split_and!.
  - rewrite <-(run_absorbs_later (Sweeper.DeleteMail a)) by (apply Hin; left).
    apply mailOf_deleted.
  - rewrite <-(run_absorbs_earlier (Sweeper.DeleteMail a)) by (apply Hin; left).
    apply contentOf_deleted.
  - rewrite <-(run_absorbs_later (Sweeper.DeleteProxies a)) by (apply Hin; right; left).
    apply proxiesOf_deleted.
  - rewrite <-(run_absorbs_later (Sweeper.DeleteAddress a))
      by (apply Hin; right; right; left).
    apply recordsOf_deleted.
Qed.

Lemma sweep_leaves_none_expired (asOf : N) (w : World) :
  Sweeper.expired asOf (Sweeper.sweep asOf w) = [].
Proof.
  destruct (Sweeper.expired asOf (Sweeper.sweep asOf w)) as [|a l] eqn:E; [done|].
  exfalso.
  assert (Ha : a ∈ Sweeper.expired asOf (Sweeper.sweep asOf w)) by (rewrite E; left).
  apply elem_of_expired in Ha as (r & Hr & Hexp & <-).
  assert (Hw : address r ∈ Sweeper.expired asOf w).
  { apply elem_of_expired. exists r. split; [|done]. by apply run_registry_sub in Hr. }
  pose proof (sweep_leaves_nothing asOf w (address r) Hw) as (_ & _ & _ & Hnone).
  apply (filter_nil_not_elem_of _ _ r) in Hnone; done.
Qed.

(** C3. For an address the sweep reports expired, the plan of the sweep
    holds its cascade in one piece and in order: its mail, then its proxy
    mappings, then the address record.  The deletions are carried out:
    after the first the address has no mail rows and none of the raw
    content they pointed to, after the second no proxy mappings either,
    and only the third removes the record, of which there was one.  So a
    run cut short inside that cascade has not touched the registry and
    the address is reported expired again; in a run cut short anywhere,
    an address record is deleted only after its mail and its proxy
    mappings were, and an address whose record is not yet deleted is
    reported expired again; sweeping again after a run cut short
    anywhere ends in the state an uninterrupted sweep ends in, and in
    that state nothing of the address is left and no address is reported
    expired.  A run is cut short between deletions, each deletion being
    one operation of its component. *)
Theorem sweep_cascade_crash_safe (asOf : N) (w : World) (a : string) (k : nat) :
  a ∈ Sweeper.expired asOf w →
  let after j := Sweeper.run (take j (Sweeper.cascade a)) w in
  let done := Sweeper.sweep asOf w in
  (∃ earlier later,
     Sweeper.plan asOf w =
       earlier ++ [Sweeper.DeleteMail a; Sweeper.DeleteProxies a; Sweeper.DeleteAddress a]
               ++ later)
  ∧ (Sweeper.mailOf a (after 1) = [] ∧ Sweeper.contentOf a w (after 1) = []
     ∧ proxies (after 1) = proxies w ∧ registry (after 1) = registry w)
  ∧ (Sweeper.mailOf a (after 2) = [] ∧ Sweeper.contentOf a w (after 2) = []
     ∧ Sweeper.proxiesOf a (after 2) = [] ∧ registry (after 2) = registry w)
  ∧ (Sweeper.mailOf a (after 3) = [] ∧ Sweeper.contentOf a w (after 3) = []
     ∧ Sweeper.proxiesOf a (after 3) = [] ∧ Sweeper.recordsOf a (after 3) = [])
  ∧ Sweeper.recordsOf a w ≠ []
  ∧ (k < 3 → registry (after k) = registry w ∧ a ∈ Sweeper.expired asOf (after k))
  ∧ (Sweeper.mailOf a done = [] ∧ Sweeper.contentOf a w done = []
     ∧ Sweeper.proxiesOf a done = [] ∧ Sweeper.recordsOf a done = []
     ∧ Sweeper.expired asOf done = [])
  ∧ (Sweeper.DeleteAddress a ∈ take k (Sweeper.plan asOf w) →
       Sweeper.DeleteMail a ∈ take k (Sweeper.plan asOf w)
       ∧ Sweeper.DeleteProxies a ∈ take k (Sweeper.plan asOf w))
  ∧ (Sweeper.DeleteAddress a ∉ take k (Sweeper.plan asOf w) →
       a ∈ Sweeper.expired asOf (Sweeper.interrupted k asOf w))
  ∧ Sweeper.sweep asOf (Sweeper.interrupted k asOf w) = done.
Proof.
  intros Ha. cbv zeta.
  assert (Hreg : k < 3 →
            registry (Sweeper.run (take k (Sweeper.cascade a)) w) = registry w).
  { intros Hk. apply run_registry_untouched. intros b Hb.
    destruct k as [|[|[|k]]]; [| | |lia]; simpl in Hb.
    - inversion Hb.
    - apply list_elem_of_singleton in Hb. done.
    - rewrite !elem_of_cons in Hb. destruct Hb as [?|[?|Hb]]; [done|done|inversion Hb]. }
  split; [by apply plan_has_cascade|].
  split; [split_and!; [apply mailOf_deleted|apply (contentOf_deleted a w [])|done..]|].
  split; [split_and!; [apply mailOf_deleted
                      |apply (contentOf_deleted a w [Sweeper.DeleteProxies a])
                      |apply proxiesOf_deleted|done]|].
  split; [split_and!; [apply mailOf_deleted
                      |apply (contentOf_deleted a w
                                [Sweeper.DeleteProxies a; Sweeper.DeleteAddress a])
                      |apply proxiesOf_deleted|apply recordsOf_deleted]|].
  split.
  { apply elem_of_expired in Ha as (r & Hr & _ & <-).
    intros Hnone. by apply (filter_nil_not_elem_of _ _ r) in Hnone. }
  split.
  { intros Hk. split; [by apply Hreg|].
    apply elem_of_expired in Ha as (r & Hr & Hexp & <-).
    apply elem_of_expired. exists r. by rewrite Hreg. }
  split.
  { pose proof (sweep_leaves_nothing asOf w a Ha) as (H1 & H2 & H3 & H4).
    split_and!; try done. apply sweep_leaves_none_expired. }
  split.
  { intros Hdone. split; apply (prefix_cascade_complete _ _ a); try done.
    - left.
    - right. left. }
  split; [|apply interrupted_then_sweep].
  intros Hnot.
  apply elem_of_expired in Ha as (r & Hr & Hexp & <-).
  apply elem_of_expired. exists r. split; [|done].
  by apply run_registry_keeps.
Qed.

Lemma sweep_cascade_crash_safe_witness :
  "a1@mail.example" ∈ Sweeper.expired 5000 sample_world
  ∧ Sweeper.mailOf "a1@mail.example" sample_world ≠ []
  ∧ Sweeper.proxiesOf "a1@mail.example" sample_world ≠ []
  ∧ (Sweeper.mailOf "a1@mail.example" (Sweeper.sweep 5000 sample_world) = []
     ∧ Sweeper.contentOf "a1@mail.example" sample_world (Sweeper.sweep 5000 sample_world) = []
     ∧ Sweeper.proxiesOf "a1@mail.example" (Sweeper.sweep 5000 sample_world) = []
     ∧ Sweeper.recordsOf "a1@mail.example" (Sweeper.sweep 5000 sample_world) = [])
  ∧ registry (Sweeper.run (take 2 (Sweeper.cascade "a1@mail.example")) sample_world)
      = registry sample_world
  ∧ Sweeper.sweep 5000 (Sweeper.interrupted 2 5000 sample_world)
      = Sweeper.sweep 5000 sample_world.
Proof.
  assert (Ha : "a1@mail.example" ∈ Sweeper.expired 5000 sample_world)
    by (vm_compute; left).
  split; [exact Ha|].
  split; [vm_compute; discriminate|]. split; [vm_compute; discriminate|].
  pose proof (sweep_cascade_crash_safe 5000 sample_world "a1@mail.example" 2 Ha)
    as (_ & _ & _ & _ & _ & Hreg & (H1 & H2 & H3 & H4 & _) & _ & _ & Hsweep).
  split; [by split_and!|].
  split; [apply Hreg; lia|exact Hsweep].
Defined.

(** ** Mail Storage Pipeline *)

Lemma put_keeps_raw d mid from subj at_ raw (st : MailboxStore.Store) :
  MailboxStore.blobs st !! mid = Some raw →
  MailboxStore.blobs (MailboxStore.put d mid from subj at_ raw st).2 !! mid = Some raw.
Proof.
  intros Hraw. unfold MailboxStore.put.
  destruct (putItemIfAbsent _ _ _); simpl; [apply lookup_insert_eq|done].
Qed.

Lemma processRecipient_keeps_raw relay now (m : Message) rcpt (w : World) :
  MailboxStore.blobs (mailbox w) !! mailMessageId m = Some (mailRaw m) →
  MailboxStore.blobs (mailbox (Pipeline.processRecipient relay now m rcpt w).2)
    !! mailMessageId m = Some (mailRaw m).
Proof.
  intros Hraw. unfold Pipeline.processRecipient.
  destruct (AddressRegistry.get rcpt (registry w)) as [e|r].
  - by destruct (ReplyProxyRegistry.resolve rcpt (proxies w)).
  - destruct (now <? expiresAt r)%N; simpl; [by apply put_keeps_raw|done].
Qed.

Lemma processRecipient_relay_free relay relay' now (m : Message) rcpt (w : World) :
  (Pipeline.processRecipient relay now m rcpt w).2 =
  (Pipeline.processRecipient relay' now m rcpt w).2.
Proof.
  unfold Pipeline.processRecipient.
  destruct (AddressRegistry.get rcpt (registry w)) as [e|r].
  - by destruct (ReplyProxyRegistry.resolve rcpt (proxies w)).
  - by destruct (now <? expiresAt r)%N.
Qed.

Lemma processAll_keeps_raw relay now (m : Message) rcpts (w : World) :
  MailboxStore.blobs (mailbox w) !! mailMessageId m = Some (mailRaw m) →
  MailboxStore.blobs (mailbox (Pipeline.processAll relay now m rcpts w).2)
    !! mailMessageId m = Some (mailRaw m).
Proof.
  revert w. induction rcpts as [|r rcpts IH]; intros w Hraw; simpl; [done|].
  pose proof (processRecipient_keeps_raw relay now m r w Hraw) as H1.
  destruct (Pipeline.processRecipient relay now m r w) as [e1 w1]. simpl in H1.
  specialize (IH w1 H1).
  by destruct (Pipeline.processAll relay now m rcpts w1) as [e2 w2].
Qed.

Lemma processAll_relay_free relay relay' now (m : Message) rcpts (w : World) :
  (Pipeline.processAll relay now m rcpts w).2 =
  (Pipeline.processAll relay' now m rcpts w).2.
Proof.
  revert w. induction rcpts as [|r rcpts IH]; intros w; simpl; [done|].
  pose proof (processRecipient_relay_free relay relay' now m r w) as H1.
  destruct (Pipeline.processRecipient relay now m r w) as [e1 w1].
  destruct (Pipeline.processRecipient relay' now m r w) as [e1' w1'].
  simpl in H1. subst w1'. specialize (IH w1).
  destruct (Pipeline.processAll relay now m rcpts w1) as [e2 w2].
  by destruct (Pipeline.processAll relay' now m rcpts w1) as [e2' w2'].
Qed.

(** C2. For a message addressed to the e-mail domain that the filter lets
    through, every forwarding attempt of the Mail Storage Pipeline comes
    after the raw content was written to the bucket under the message id;
    when the pipeline is done the raw content is still there, whatever the
    relay answered; and the stored state does not depend on the relay's
    answers at all. *)
Theorem raw_content_stored_before_forwarding (c : Constants)
    (onRequest : string → Message → World → Disposition * World)
    (relay relay' : string → string → string → bool) (now : N)
    (m : Message) (w : World) :
  addressedTo (EMAIL_DOMAIN_NAME c) m →
  (onRequest "incomingMailCheckLambda" m w).1 = CONTINUE →
  let run := receive Pipeline.deposit onRequest (Pipeline.onEvent relay now)
               (DisposableEmailCdkStack c) m w in
  let run' := receive Pipeline.deposit onRequest (Pipeline.onEvent relay' now)
                (DisposableEmailCdkStack c) m w in
  run.1 !! 1 = Some (ObjectStored "emailStorageBucket" (mailMessageId m))
  ∧ (∀ i from to ok, run.1 !! i = Some (SendRawEmail from to ok) → 1 < i)
  ∧ MailboxStore.blobs (mailbox run.2) !! mailMessageId m = Some (mailRaw m)
  ∧ run'.2 = run.2.
Proof.
  intros Hto Hok. cbv zeta.
  rewrite !(receive_unfold _ _ _ c m w Hto). cbv zeta. rewrite Hok.
  unfold Pipeline.onEvent. rewrite !decide_True by done.
  unfold Pipeline.storeEmail. simpl. split_and!.
  - done.
  - intros [|[|i]] from to ok Hi; [done|done|lia].
  - apply processAll_keeps_raw. simpl. apply lookup_insert_eq.
  - apply processAll_relay_free.
Qed.

(** * The properties on the sample data *)

Lemma sample_message_addressed :
  addressedTo (EMAIL_DOMAIN_NAME sample_constants) sample_message.
Proof. exists "p1@mail.example". split; [left|reflexivity]. Defined.

Lemma intake_filter_gates_storage_witness :
  addressedTo (EMAIL_DOMAIN_NAME sample_constants) sample_message
  ∧ receive Pipeline.deposit (λ _ _ w, (STOP_RULE_SET, w))
      (Pipeline.onEvent (λ _ _ _, true) 3000)
      (DisposableEmailCdkStack sample_constants) sample_message sample_world =
    ([LambdaInvoked "incomingMailCheckLambda" REQUEST_RESPONSE], sample_world).
Proof.
  split; [exact sample_message_addressed|].
  pose proof (intake_filter_gates_storage Pipeline.deposit
                (λ _ _ w, (STOP_RULE_SET, w)) (Pipeline.onEvent (λ _ _ _, true) 3000)
                sample_constants sample_message sample_world
                sample_message_addressed) as H.
  cbv zeta in H. destruct H as (_ & _ & Hrejected).
  apply Hrejected. discriminate.
Defined.

Lemma raw_content_stored_before_forwarding_witness :
  addressedTo (EMAIL_DOMAIN_NAME sample_constants) sample_message
  ∧ (receive Pipeline.deposit (λ _ _ w, (CONTINUE, w))
       (Pipeline.onEvent (λ _ _ _, false) 3000)
       (DisposableEmailCdkStack sample_constants) sample_message sample_world).1 !! 4 =
      Some (SendRawEmail "a1@mail.example" "bob@elsewhere.example" false)
  ∧ MailboxStore.blobs (mailbox
      (receive Pipeline.deposit (λ _ _ w, (CONTINUE, w))
         (Pipeline.onEvent (λ _ _ _, false) 3000)
         (DisposableEmailCdkStack sample_constants) sample_message sample_world).2)
      !! "m-9" = Some "raw-9".
Proof.
  split; [exact sample_message_addressed|]. split; [reflexivity|].
  pose proof (raw_content_stored_before_forwarding sample_constants
                (λ _ _ w, (CONTINUE, w)) (λ _ _ _, false) (λ _ _ _, true) 3000
                sample_message sample_world sample_message_addressed eq_refl) as H.
  cbv zeta in H. destruct H as (_ & _ & Hkept & _). exact Hkept.
Defined.

Lemma sample_registry_reachable : AddressRegistry.reachable sample_registry.
Proof. apply AddressRegistry.reachable_step, AddressRegistry.reachable_empty. Defined.

Lemma registry_unique_and_monotone_witness :
  AddressRegistry.reachable sample_registry
  ∧ NoDup (address <$> sample_registry)
  ∧ (87400 ≤ 91000)%N.
Proof.
  split; [exact sample_registry_reachable|].
  pose proof (registry_unique_and_monotone sample_registry
    (AddressRegistry.UpdateSettings "0@mail.example"
       {| AddressRegistry.extendTtlBy := Some 3600%N;
          AddressRegistry.markForDeletion := false |})
    "0@mail.example"
    {| address := "0@mail.example"; ownerToken := "owner-1"; createdAt := 1000;
       expiresAt := 87400; deletionFlag := false |}
    {| address := "0@mail.example"; ownerToken := "owner-1"; createdAt := 1000;
       expiresAt := 91000; deletionFlag := false |}
    sample_registry_reachable) as (Hunique & _ & Hmono).
  split; [exact Hunique|].
  apply Hmono; reflexivity.
Defined.

Lemma sample_draw_inj : Inj (=) (=) sample_draw.
Proof. unfold sample_draw. apply _. Defined.

Lemma create_returns_address_witness :
  (MAILBOX_TTL sample_constants ≤ MAX_SAFE_INTEGER)%N
  ∧ Inj (=) (=) sample_draw
  ∧ "mail.example" = EMAIL_DOMAIN_NAME sample_constants
  ∧ ∃ cfg r reg',
      handlerConfig (DisposableEmailCdkStack sample_constants) "createEmailLambda" = Some cfg
      ∧ cfgMailboxTtl cfg = 86400%N
      ∧ AddressRegistry.create cfg sample_draw 5000 "owner-2" "mail.example"
          sample_registry =
          (inr (r, filter (λ x, ownerToken x = "owner-2") reg'), reg')
      ∧ expiresAt r = 91400%N.
Proof.
  assert (Httl' : (MAILBOX_TTL sample_constants ≤ MAX_SAFE_INTEGER)%N)
    by (vm_compute; discriminate).
  split; [exact Httl'|]. split; [exact sample_draw_inj|]. split; [reflexivity|].
  destruct (create_returns_address sample_constants sample_draw 5000 "owner-2"
              "mail.example" sample_registry Httl' sample_draw_inj eq_refl)
    as (cfg & r & reg' & Hcfg & Httl & Hcreate & _ & Hat & Hexp & _).
  exists cfg, r, reg'. split_and!; try done.
  rewrite Hexp, Hat. reflexivity.
Defined.

(** * Further properties of the declared infrastructure *)

(** ** Storage calls under a role *)

Lemma rowsOf_setTable x y rows (c : Cloud) :
  rowsOf x (setTable y rows c) = if decide (x = y) then rows else rowsOf x c.
Proof.
  unfold rowsOf, setTable. simpl. case_decide as Hxy.
  - subst. by rewrite lookup_insert_eq.
  - by rewrite lookup_insert_ne.
Qed.

Lemma objectsOf_setBucket b b' objs (c : Cloud) :
  objectsOf b (setBucket b' objs c) = if decide (b = b') then objs else objectsOf b c.
Proof.
  unfold objectsOf, setBucket. simpl. case_decide as Hb.
  - subst. by rewrite lookup_insert_eq.
  - by rewrite lookup_insert_ne.
Qed.

Lemma permits_inv (t : Template) f action on :
  permits t f action on = true →
  f ∈ allowedBy t action on
  ∨ ∃ s, s ∈ resourcePolicyFor t f ∧ statementAllows s action on = true.
Proof.
  unfold permits, grantedTo. intros H.
  apply existsb_exists in H as (s & Hs & Hallow).
  apply list_elem_of_In, elem_of_app in Hs as [Hs|Hs].
  - left. unfold rolePolicy in Hs.
    apply list_elem_of_fmap in Hs as ([g s'] & -> & Hin).
    apply list_elem_of_filter in Hin as [Hg Hin]. simpl in *. subst g.
    unfold allowedBy. apply list_elem_of_fmap.
    exists (f, s'). split; [done|]. by apply list_elem_of_filter.
  - right. eauto.
Qed.

(** No role is the SES service principal, so the bucket policy and the
    topic policy of the stack grant nothing to a function. *)
Lemma roleOf_not_ses (f : string) : roleOf f ≠ "ses.amazonaws.com".
Proof.
  unfold roleOf. intros H.
  pose proof (f_equal String.length H) as Hlen.
  rewrite string_length_app in Hlen. simpl in Hlen.
  destruct f as [|a1 [|a2 [|a3 [|a4 [|a5 [|a6 f]]]]]]; simpl in Hlen; try lia.
  discriminate H.
Qed.

Lemma stack_resourcePolicyFor (c : Constants) (f : string) :
  resourcePolicyFor (DisposableEmailCdkStack c) f = [].
Proof.
  unfold resourcePolicyFor.
  change (resourcePolicies (DisposableEmailCdkStack c)) with
    [ (TopicArn "disposable-email-notification-topic",
       {| actions := ["sns:Publish"];
          resources := [TopicArn "disposable-email-notification-topic"];
          principals := ["ses.amazonaws.com"] |});
      (BucketArn "emailStorageBucket",
       {| actions := ["s3:PutObject"];
          resources := [ObjectsArn "emailStorageBucket"];
          principals := ["ses.amazonaws.com"] |}) ].
  assert (Hno : roleOf f ∉ ["ses.amazonaws.com"]).
  { intros Hin. apply list_elem_of_singleton in Hin. by apply roleOf_not_ses in Hin. }
  rewrite !filter_cons_False by done. done.
Qed.

Lemma stack_permits_inv (c : Constants) f action on :
  permits (DisposableEmailCdkStack c) f action on = true →
  f ∈ allowedBy (DisposableEmailCdkStack c) action on.
Proof.
  intros H. apply permits_inv in H as [H|(s & Hs & _)]; [done|].
  rewrite stack_resourcePolicyFor in Hs. inversion Hs.
Qed.

Section UnderRole.
Variable t : Template.
Variable f : string.

Lemma call_table_frame x (q : Request) (c : Cloud) :
  Forall (λ a, permits t f a (TableArn x) = false) tableWriteActions →
  rowsOf x (call t f q c).2 = rowsOf x c.
Proof.
  intros Hno. unfold tableWriteActions in Hno.
  apply Forall_cons in Hno as [Hput Hno].
  apply Forall_cons in Hno as [Hupd Hno].
  apply Forall_cons in Hno as [Hdel _].
  assert (Hset : ∀ y rows action,
            permits t f action (TableArn y) = true →
            (y = x → permits t f action (TableArn y) = false) →
            rowsOf x (setTable y rows c) = rowsOf x c).
  { intros y rows action Hyes Hnot. rewrite rowsOf_setTable.
    case_decide as Hxy; [|done]. subst. rewrite Hnot in Hyes; done. }
  unfold call.
  destruct q as [y k|y pk|y|y i|y k a v|y k|b k|b k body|b k]; simpl;
    (match goal with
     | |- context [permits t f ?a ?r] => destruct (permits t f a r) eqn:Hp
     end); simpl; try done;
    try (destruct (findTable t y); simpl; try done).
  - eapply Hset; [exact Hp|by intros ->].
  - eapply Hset; [exact Hp|by intros ->].
  - eapply Hset; [exact Hp|by intros ->].
Qed.

Lemma runHandler_table_frame {R} x (h : Handler R) (c : Cloud) :
  Forall (λ a, permits t f a (TableArn x) = false) tableWriteActions →
  rowsOf x (runHandler t f h c).2 = rowsOf x c.
Proof.
  intros Hno. revert c. induction h as [r|q k IH]; intros c; simpl; [done|].
  pose proof (call_table_frame x q c Hno) as Hq.
  destruct (call t f q c) as [resp c']. simpl in Hq. by rewrite IH.
Qed.

Lemma call_bucket_shrinks b (q : Request) (c : Cloud) :
  permits t f "s3:PutObject" (ObjectsArn b) = false →
  objectsOf b (call t f q c).2 ⊆ objectsOf b c.
Proof.
  intros Hput. unfold call.
  destruct q as [y k|y pk|y|y i|y k a v|y k|b' k|b' k body|b' k]; simpl;
    (match goal with
     | |- context [permits t f ?a ?r] => destruct (permits t f a r) eqn:Hp
     end); simpl; try done;
    try (destruct (findTable t y); simpl; done).
  - rewrite objectsOf_setBucket. case_decide; [|done]. subst. congruence.
  - rewrite objectsOf_setBucket. case_decide; [|done]. subst.
    apply delete_subseteq.
Qed.

Lemma runHandler_bucket_shrinks {R} b (h : Handler R) (c : Cloud) :
  permits t f "s3:PutObject" (ObjectsArn b) = false →
  objectsOf b (runHandler t f h c).2 ⊆ objectsOf b c.
Proof.
  intros Hput. revert c. induction h as [r|q k IH]; intros c; simpl; [done|].
  pose proof (call_bucket_shrinks b q c Hput) as Hq.
  destruct (call t f q c) as [resp c']. simpl in Hq.
  etrans; [apply IH|exact Hq].
Qed.

Lemma call_bucket_frame b (q : Request) (c : Cloud) :
  permits t f "s3:PutObject" (ObjectsArn b) = false →
  permits t f "s3:DeleteObject" (ObjectsArn b) = false →
  objectsOf b (call t f q c).2 = objectsOf b c.
Proof.
  intros Hput Hdel. unfold call.
  destruct q as [y k|y pk|y|y i|y k a v|y k|b' k|b' k body|b' k]; simpl;
    (match goal with
     | |- context [permits t f ?a ?r] => destruct (permits t f a r) eqn:Hp
     end); simpl; try done;
    try (destruct (findTable t y); simpl; done);
    rewrite objectsOf_setBucket; case_decide; try done; subst; congruence.
Qed.

Lemma runHandler_bucket_frame {R} b (h : Handler R) (c : Cloud) :
  permits t f "s3:PutObject" (ObjectsArn b) = false →
  permits t f "s3:DeleteObject" (ObjectsArn b) = false →
  objectsOf b (runHandler t f h c).2 = objectsOf b c.
Proof.
  intros Hput Hdel. revert c. induction h as [r|q k IH]; intros c; simpl; [done|].
  pose proof (call_bucket_frame b q c Hput Hdel) as Hq.
  destruct (call t f q c) as [resp c']. simpl in Hq. by rewrite IH.
Qed.
End UnderRole.

Lemma agree_setTable ht hb y rows1 rows2 (c1 c2 : Cloud) :
  agreeOutside ht hb c1 c2 → (y ∉ ht → rows1 = rows2) →
  agreeOutside ht hb (setTable y rows1 c1) (setTable y rows2 c2).
Proof.
  intros [Ht Hb] Hrows. split; [|exact Hb].
  intros x Hx. rewrite !rowsOf_setTable. case_decide; [subst; by apply Hrows|by apply Ht].
Qed.

Lemma agree_setBucket ht hb b objs1 objs2 (c1 c2 : Cloud) :
  agreeOutside ht hb c1 c2 → (b ∉ hb → objs1 = objs2) →
  agreeOutside ht hb (setBucket b objs1 c1) (setBucket b objs2 c2).
Proof.
  intros [Ht Hb] Hobjs. split; [exact Ht|].
  intros b' Hb'. rewrite !objectsOf_setBucket. case_decide; [subst; by apply Hobjs|by apply Hb].
Qed.

Section Unreadable.
Variable t : Template.
Variable f : string.
Variables ht hb : list string.
Hypothesis Hblind : cannotRead t f ht hb.

Lemma readable_table x a (c1 c2 : Cloud) :
  a ∈ tableReadActions → permits t f a (TableArn x) = true →
  agreeOutside ht hb c1 c2 → rowsOf x c1 = rowsOf x c2.
Proof.
  intros Ha Hyes [Ht _]. apply Ht. intros Hx.
  destruct Hblind as [Hno _]. rewrite (Hno x a Hx Ha) in Hyes. done.
Qed.

(** One call answers the same in two states that differ only in what
    the function cannot read, and leaves them differing only there. *)
Lemma call_agree (q : Request) (c1 c2 : Cloud) :
  agreeOutside ht hb c1 c2 →
  (call t f q c1).1 = (call t f q c2).1
  ∧ agreeOutside ht hb (call t f q c1).2 (call t f q c2).2.
Proof.
  intros Hagree. unfold call.
  destruct q as [y k|y pk|y|y i|y k a v|y k|b k|b k body|b k]; simpl;
    (match goal with
     | |- context [permits t f ?a ?r] => destruct (permits t f a r) eqn:Hp
     end); simpl; try done;
    try (match goal with
         | |- context [findTable t ?z] => destruct (findTable t z) as [s|]
         end; simpl; try done).
  - split; [|done].
    rewrite (readable_table y "dynamodb:GetItem" c1 c2); try done.
    unfold tableReadActions. rewrite !elem_of_cons. auto.
  - split; [|done].
    rewrite (readable_table y "dynamodb:Query" c1 c2); try done.
    unfold tableReadActions. rewrite !elem_of_cons. auto.
  - split; [|done].
    rewrite (readable_table y "dynamodb:Scan" c1 c2); try done.
    unfold tableReadActions. rewrite !elem_of_cons. auto.
  - split; [done|]. apply agree_setTable; [done|].
    intros Hy. by rewrite (proj1 Hagree y Hy).
  - split; [done|]. apply agree_setTable; [done|].
    intros Hy. by rewrite (proj1 Hagree y Hy).
  - split; [done|]. apply agree_setTable; [done|].
    intros Hy. by rewrite (proj1 Hagree y Hy).
  - split; [|done]. destruct Hagree as [_ Hb]. rewrite (Hb b); [done|].
    intros Hin. destruct Hblind as [_ Hno]. rewrite (Hno b Hin) in Hp. done.
  - split; [done|]. apply agree_setBucket; [done|].
    intros Hb. by rewrite (proj2 Hagree b Hb).
  - split; [done|]. apply agree_setBucket; [done|].
    intros Hb. by rewrite (proj2 Hagree b Hb).
Qed.

Lemma runHandler_agree {R} (h : Handler R) (c1 c2 : Cloud) :
  agreeOutside ht hb c1 c2 →
  (runHandler t f h c1).1 = (runHandler t f h c2).1.
Proof.
  revert c1 c2. induction h as [r|q k IH]; intros c1 c2 Hagree; simpl; [done|].
  destruct (call_agree q c1 c2 Hagree) as [Hresp Hnext].
  destruct (call t f q c1) as [r1 c1'], (call t f q c2) as [r2 c2'].
  simpl in *. subst r2. by apply IH.
Qed.
End Unreadable.

(** Settles a refusal from the list of functions the stack allows the
    action to. *)
Ltac stack_refuses Hf :=
  match goal with
  | |- permits (DisposableEmailCdkStack ?c) ?f ?a ?r = false =>
      let E := fresh "E" in
      destruct (permits (DisposableEmailCdkStack c) f a r) eqn:E; [exfalso|reflexivity];
      apply stack_permits_inv in E;
      let l := eval vm_compute in (allowedBy (DisposableEmailCdkStack c) a r) in
      change (allowedBy (DisposableEmailCdkStack c) a r) with l in E;
      apply Hf;
      repeat (apply elem_of_cons in E as [->|E];
              [apply (bool_decide_unpack _); vm_compute; exact I|]);
      inversion E
  end.

(** X1. Each table can be changed by the functions granted write access
    to it and by no other: whatever program runs as any other function,
    the rows of the table are afterwards what they were.  The addresses
    table belongs to address creation, settings change and clean-up; the
    e-mails table to the pipeline, content retrieval and clean-up; the
    reply-addresses table to the pipeline and clean-up. *)
Theorem table_writers (c : Constants) (f : string) {R : Type} (h : Handler R)
    (cloud : Cloud) :
  let t := DisposableEmailCdkStack c in
  let after := (runHandler t f h cloud).2 in
  (f ∉ ["createEmailLambda"; "cleanUpLambda"; "changeAddressSettingsLambda"] →
     rowsOf "disposableAddressesTable" after = rowsOf "disposableAddressesTable" cloud)
  ∧ (f ∉ ["StoreEmailLambda"; "getEmailFileLambda"; "cleanUpLambda"] →
     rowsOf "disposableEmailsTable" after = rowsOf "disposableEmailsTable" cloud)
  ∧ (f ∉ ["StoreEmailLambda"; "cleanUpLambda"] →
     rowsOf "disposableReplyAddressesTable" after =
       rowsOf "disposableReplyAddressesTable" cloud)
  ∧ Forall (λ a,
      allowedBy t a (TableArn "disposableAddressesTable") =
        ["createEmailLambda"; "cleanUpLambda"; "changeAddressSettingsLambda"]
      ∧ allowedBy t a (TableArn "disposableEmailsTable") =
        ["StoreEmailLambda"; "getEmailFileLambda"; "cleanUpLambda"]
      ∧ allowedBy t a (TableArn "disposableReplyAddressesTable") =
        ["StoreEmailLambda"; "cleanUpLambda"]) tableWriteActions.
Proof.
  cbv zeta. split_and!.
  - intros Hf. apply runHandler_table_frame.
    repeat (apply Forall_cons; split); [..|apply Forall_nil_2]; stack_refuses Hf.
  - intros Hf. apply runHandler_table_frame.
    repeat (apply Forall_cons; split); [..|apply Forall_nil_2]; stack_refuses Hf.
  - intros Hf. apply runHandler_table_frame.
    repeat (apply Forall_cons; split); [..|apply Forall_nil_2]; stack_refuses Hf.
  - repeat (apply Forall_cons; split); [..|apply Forall_nil_2]; repeat split.
Qed.

(** X2. The bucket of raw mail is left exactly as it was by every function
    but the pipeline and clean-up, whatever program runs; and under any
    function but the pipeline, clean-up included, no object is added or
    overwritten: what is in the bucket afterwards was there before. *)
Theorem bucket_writers (c : Constants) (f : string) {R : Type} (h : Handler R)
    (cloud : Cloud) :
  let t := DisposableEmailCdkStack c in
  let after := (runHandler t f h cloud).2 in
  (f ∉ ["StoreEmailLambda"; "cleanUpLambda"] →
     objectsOf "emailStorageBucket" after = objectsOf "emailStorageBucket" cloud)
  ∧ (f ≠ "StoreEmailLambda" →
     objectsOf "emailStorageBucket" after ⊆ objectsOf "emailStorageBucket" cloud)
  ∧ allowedBy t "s3:PutObject" (ObjectsArn "emailStorageBucket") = ["StoreEmailLambda"]
  ∧ allowedBy t "s3:DeleteObject" (ObjectsArn "emailStorageBucket") =
      ["StoreEmailLambda"; "cleanUpLambda"].
Proof.
  cbv zeta. split_and!; [| |reflexivity|reflexivity].
  - intros Hf. apply runHandler_bucket_frame; stack_refuses Hf.
  - intros Hf. apply runHandler_bucket_shrinks. stack_refuses Hf.
Qed.

Lemma agree_on_one_table y rows1 rows2 (c : Cloud) :
  agreeOutside [y] [] (setTable y rows1 c) (setTable y rows2 c).
Proof.
  apply agree_setTable; [done|]. intros Hy. destruct Hy. left.
Qed.

Lemma agree_on_one_bucket b objs1 objs2 (c : Cloud) :
  agreeOutside [] [b] (setBucket b objs1 c) (setBucket b objs2 c).
Proof.
  apply agree_setBucket; [done|]. intros Hb. destruct Hb. left.
Qed.

(** X3. Reading the e-mails table is granted to mail listing, content
    retrieval, clean-up and outbound send and to no other function; the
    pipeline holds write actions on it and no read action.  A function
    that holds no action on the table at all - the intake filter, address
    creation and settings change - learns nothing of it: the result of
    any program run as one of them is the same in two states that differ
    only in that table. *)
Theorem mail_metadata_readers (c : Constants) (f : string) {R : Type} (h : Handler R)
    (c1 c2 : Cloud) :
  f ∉ ["StoreEmailLambda"; "getEmailsListLambda"; "getEmailFileLambda"; "cleanUpLambda";
       "sendEmailLambda"] →
  agreeOutside ["disposableEmailsTable"] [] c1 c2 →
  (runHandler (DisposableEmailCdkStack c) f h c1).1 =
    (runHandler (DisposableEmailCdkStack c) f h c2).1
  ∧ Forall (λ a, allowedBy (DisposableEmailCdkStack c) a (TableArn "disposableEmailsTable") =
                   ["getEmailsListLambda"; "getEmailFileLambda"; "cleanUpLambda";
                    "sendEmailLambda"])
      tableReadActions.
Proof.
  intros Hf Hagree. split.
  - revert Hagree. apply runHandler_agree. split.
    + intros x a Hx Ha. apply list_elem_of_singleton in Hx as ->.
      unfold tableReadActions in Ha.
      repeat (apply elem_of_cons in Ha as [->|Ha]; [stack_refuses Hf|]).
      inversion Ha.
    + intros b Hb. inversion Hb.
  - repeat (apply Forall_cons; split; [reflexivity|]). apply Forall_nil_2.
Qed.

Lemma mail_metadata_readers_witness :
  ("changeAddressSettingsLambda" ∉
     ["StoreEmailLambda"; "getEmailsListLambda"; "getEmailFileLambda"; "cleanUpLambda";
      "sendEmailLambda"])
  ∧ agreeOutside ["disposableEmailsTable"] []
      (setTable "disposableEmailsTable" [{[ "destination" := "a1@mail.example" ]}] empty_cloud)
      (setTable "disposableEmailsTable" [] empty_cloud)
  ∧ (runHandler stack "changeAddressSettingsLambda" probe
       (setTable "disposableEmailsTable" [{[ "destination" := "a1@mail.example" ]}] empty_cloud)).1 =
    (runHandler stack "changeAddressSettingsLambda" probe
       (setTable "disposableEmailsTable" [] empty_cloud)).1.
Proof.
  assert (Hf : "changeAddressSettingsLambda" ∉
    ["StoreEmailLambda"; "getEmailsListLambda"; "getEmailFileLambda"; "cleanUpLambda";
     "sendEmailLambda"])
    by (apply (bool_decide_unpack _); vm_compute; exact I).
  split; [exact Hf|]. split; [apply agree_on_one_table|].
  apply (mail_metadata_readers constants "changeAddressSettingsLambda" probe _ _ Hf).
  apply agree_on_one_table.
Defined.

(** X4. The raw content in the bucket is visible only to the pipeline and
    to content retrieval: for any other function - clean-up, which may
    only delete there, included - the result of any program is the same
    in two states that differ only in the bucket. *)
Theorem raw_content_readers (c : Constants) (f : string) {R : Type} (h : Handler R)
    (c1 c2 : Cloud) :
  f ∉ ["StoreEmailLambda"; "getEmailFileLambda"] →
  agreeOutside [] ["emailStorageBucket"] c1 c2 →
  (runHandler (DisposableEmailCdkStack c) f h c1).1 =
  (runHandler (DisposableEmailCdkStack c) f h c2).1.
Proof.
  intros Hf. apply runHandler_agree. split.
  - intros x a Hx. inversion Hx.
  - intros b Hb. apply list_elem_of_singleton in Hb as ->. stack_refuses Hf.
Qed.

Lemma raw_content_readers_witness :
  ("cleanUpLambda" ∉ ["StoreEmailLambda"; "getEmailFileLambda"])
  ∧ agreeOutside [] ["emailStorageBucket"]
      (setBucket "emailStorageBucket" {[ "m-1" := "raw-1" ]} empty_cloud)
      (setBucket "emailStorageBucket" ∅ empty_cloud)
  ∧ (runHandler stack "cleanUpLambda" probe
       (setBucket "emailStorageBucket" {[ "m-1" := "raw-1" ]} empty_cloud)).1 =
    (runHandler stack "cleanUpLambda" probe
       (setBucket "emailStorageBucket" ∅ empty_cloud)).1.
Proof.
  assert (Hf : "cleanUpLambda" ∉ ["StoreEmailLambda"; "getEmailFileLambda"])
    by (apply (bool_decide_unpack _); vm_compute; exact I).
  split; [exact Hf|]. split; [apply agree_on_one_bucket|].
  apply (raw_content_readers constants "cleanUpLambda" probe _ _ Hf).
  apply agree_on_one_bucket.
Defined.

(** X5. The reply-addresses table, which holds the real addresses behind
    the proxies, is visible only to the intake filter, the pipeline and
    clean-up: for any function behind the API the result of any program is
    the same in two states that differ only in that table. *)
Theorem reply_addresses_readers (c : Constants) (f : string) {R : Type} (h : Handler R)
    (c1 c2 : Cloud) :
  f ∉ ["incomingMailCheckLambda"; "StoreEmailLambda"; "cleanUpLambda"] →
  agreeOutside ["disposableReplyAddressesTable"] [] c1 c2 →
  (runHandler (DisposableEmailCdkStack c) f h c1).1 =
  (runHandler (DisposableEmailCdkStack c) f h c2).1.
Proof.
  intros Hf. apply runHandler_agree. split.
  - intros x a Hx Ha. apply list_elem_of_singleton in Hx as ->.
    unfold tableReadActions in Ha.
    repeat (apply elem_of_cons in Ha as [->|Ha]; [stack_refuses Hf|]).
    inversion Ha.
  - intros b Hb. inversion Hb.
Qed.

Lemma reply_addresses_readers_witness :
  ("sendEmailLambda" ∉ ["incomingMailCheckLambda"; "StoreEmailLambda"; "cleanUpLambda"])
  ∧ agreeOutside ["disposableReplyAddressesTable"] []
      (setTable "disposableReplyAddressesTable"
         [{[ "proxyAddress" := "p1@mail.example" ]}] empty_cloud)
      (setTable "disposableReplyAddressesTable" [] empty_cloud)
  ∧ (runHandler stack "sendEmailLambda" probe
       (setTable "disposableReplyAddressesTable"
          [{[ "proxyAddress" := "p1@mail.example" ]}] empty_cloud)).1 =
    (runHandler stack "sendEmailLambda" probe
       (setTable "disposableReplyAddressesTable" [] empty_cloud)).1.
Proof.
  assert (Hf : "sendEmailLambda" ∉
    ["incomingMailCheckLambda"; "StoreEmailLambda"; "cleanUpLambda"])
    by (apply (bool_decide_unpack _); vm_compute; exact I).
  split; [exact Hf|]. split; [apply agree_on_one_table|].
  apply (reply_addresses_readers constants "sendEmailLambda" probe _ _ Hf).
  apply agree_on_one_table.
Defined.

(** X6. Sending mail through SES is open to the pipeline and to outbound
    send and to no other function, on whatever resource the request names. *)
Theorem mail_senders (c : Constants) (f : string) (on : Arn) :
  permits (DisposableEmailCdkStack c) f "ses:SendRawEmail" on = true
  ↔ f ∈ ["StoreEmailLambda"; "sendEmailLambda"].
Proof.
  split.
  - intros H. apply stack_permits_inv in H.
    assert (Hl : allowedBy (DisposableEmailCdkStack c) "ses:SendRawEmail" on =
                 ["StoreEmailLambda"; "sendEmailLambda"]) by reflexivity.
    by rewrite Hl in H.
  - intros H. repeat (apply elem_of_cons in H as [->|H]; [reflexivity|]).
    inversion H.
Qed.

(** ** The API construct *)

(** X7. Whatever five functions the API construct is given, the
    permissions it leaves on them are those of its five methods with a
    handler and no other.  Binding the integration lets API Gateway
    invoke the function from the method's ARN in the deployed stage and
    in the test-invoke stage; the five [addPermission] calls of the
    construct then repeat the deployed-stage permission of each method,
    each for the function that method integrates.  So there are three
    permissions per method, two of them alike.  In a method's ARN every
    path parameter is an asterisk: the ARN of a method under
    [{destination}] does not name that one path. *)
Theorem api_permissions_match_methods (c : Constants) (p : ApiGatewayConstructProps) :
  let t := synth (newAuthorisingApiConstruct c p) in
  let allow arn := {| principal := "apigateway.amazonaws.com"; sourceArn := Some arn |} in
  (∃ repeated,
     permissions t = (handlerMethods t ≫= ApiGateway.integrationPermissions) ++ repeated
     ∧ repeated ≡ₚ handlerMethods t ≫= λ m, take 1 (ApiGateway.integrationPermissions m))
  ∧ Forall (λ m, ∃ f, integration m = LambdaIntegration f
                      ∧ (f, allow (ApiGateway.methodArn m)) ∈ permissions t
                      ∧ (f, allow (ApiGateway.testMethodArn m)) ∈ permissions t)
      (handlerMethods t)
  ∧ Forall (λ x, ∃ m, m ∈ handlerMethods t
                      ∧ integration m = LambdaIntegration x.1
                      ∧ (x.2 = allow (ApiGateway.methodArn m)
                         ∨ x.2 = allow (ApiGateway.testMethodArn m)))
      (permissions t)
  ∧ length (permissions t) = 3 * length (handlerMethods t)
  ∧ ApiGateway.methodArn <$> handlerMethods t =
      [ MethodArn "prod" "GET" ["create"]; MethodArn "prod" "GET" ["*"];
        MethodArn "prod" "POST" ["*"]; MethodArn "prod" "GET" ["*"; "*"];
        MethodArn "prod" "POST" ["send"] ].
Proof.
  cbv zeta.
  set (t := synth (newAuthorisingApiConstruct c p)).
  pose (mk := λ verb pth f,
    {| methodPath := pth; httpMethod := verb; integration := LambdaIntegration f;
       methodAuthorizationType := AuthCOGNITO;
       methodAuthorizer := Some cognitoAuthorizer |}).
  pose (m1 := mk "GET" ["create"] (functionId (apiCreateEmailLambda p))).
  pose (m2 := mk "GET" ["{destination}"] (functionId (apiGetEmailsListLambda p))).
  pose (m3 := mk "POST" ["{destination}"] (functionId (apiChangeAddressSettingsLambda p))).
  pose (m4 := mk "GET" ["{destination}"; "{messageId}"]
                (functionId (apiGetEmailFileLambda p))).
  pose (m5 := mk "POST" ["send"] (functionId (apiSendEmailLambda p))).
  pose (allow := λ arn, {| principal := "apigateway.amazonaws.com";
                           sourceArn := Some arn |}).
  pose (deployed := λ m f, (f : string, allow (ApiGateway.methodArn m))).
  pose (test := λ m f, (f : string, allow (ApiGateway.testMethodArn m))).
  pose (f1 := functionId (apiCreateEmailLambda p)).
  pose (f2 := functionId (apiGetEmailsListLambda p)).
  pose (f3 := functionId (apiChangeAddressSettingsLambda p)).
  pose (f4 := functionId (apiGetEmailFileLambda p)).
  pose (f5 := functionId (apiSendEmailLambda p)).
  change (handlerMethods t) with [m1; m2; m3; m4; m5].
  change (permissions t) with
    ([ deployed m1 f1; test m1 f1; deployed m2 f2; test m2 f2; deployed m3 f3; test m3 f3;
       deployed m4 f4; test m4 f4; deployed m5 f5; test m5 f5 ]
     ++ [ deployed m1 f1; deployed m2 f2; deployed m4 f4; deployed m5 f5; deployed m3 f3 ]).
  split_and!; [| | |reflexivity|reflexivity].
  - eexists. split; [reflexivity|].
    change ([m1; m2; m3; m4; m5] ≫= λ m, take 1 (ApiGateway.integrationPermissions m))
      with ([deployed m1 f1; deployed m2 f2] ++ deployed m3 f3 :: [deployed m4 f4; deployed m5 f5]).
    change [deployed m1 f1; deployed m2 f2; deployed m4 f4; deployed m5 f5; deployed m3 f3]
      with ([deployed m1 f1; deployed m2 f2] ++ [deployed m4 f4; deployed m5 f5] ++ [deployed m3 f3]).
    apply Permutation_app_head. symmetry. apply Permutation_cons_append.
  - repeat (apply Forall_cons; split;
            [eexists; split; [reflexivity|split; rewrite !elem_of_app, !elem_of_cons; auto 20]|]).
    apply Forall_nil_2.
  - apply Forall_app; split.
    + repeat (apply Forall_cons; split;
        [first [ exists m1; split_and!; [rewrite !elem_of_cons; auto 10|reflexivity|auto; fail]
               | exists m2; split_and!; [rewrite !elem_of_cons; auto 10|reflexivity|auto; fail]
               | exists m3; split_and!; [rewrite !elem_of_cons; auto 10|reflexivity|auto; fail]
               | exists m4; split_and!; [rewrite !elem_of_cons; auto 10|reflexivity|auto; fail]
               | exists m5; split_and!; [rewrite !elem_of_cons; auto 10|reflexivity|auto; fail] ]|]).
      apply Forall_nil_2.
    + repeat (apply Forall_cons; split;
        [first [ exists m1; split_and!; [rewrite !elem_of_cons; auto 10|reflexivity|auto; fail]
               | exists m2; split_and!; [rewrite !elem_of_cons; auto 10|reflexivity|auto; fail]
               | exists m3; split_and!; [rewrite !elem_of_cons; auto 10|reflexivity|auto; fail]
               | exists m4; split_and!; [rewrite !elem_of_cons; auto 10|reflexivity|auto; fail]
               | exists m5; split_and!; [rewrite !elem_of_cons; auto 10|reflexivity|auto; fail] ]|]).
      apply Forall_nil_2.
Qed.

(** X8. Under every path that has a method with a handler the gateway
    also has an OPTIONS method, and an OPTIONS request is answered
    by the mock integration without a token, whatever the authorizer has
    cached: a CORS preflight needs no credentials and reaches no function. *)
Theorem preflight_is_open (c : Constants) :
  let t := DisposableEmailCdkStack c in
  Forall (λ m, Exists (λ o, methodPath o = methodPath m ∧ httpMethod o = "OPTIONS")
                 (methods t))
    (handlerMethods t)
  ∧ Forall (λ o, ∀ pool now tok cache,
              httpMethod o = "OPTIONS" →
              invokeMethod o pool now tok cache = (Forwarded MockIntegration, cache))
      (methods t)
  ∧ Forall (λ m, httpMethod m ≠ "OPTIONS") (handlerMethods t).
Proof.
  cbv zeta. split_and!.
  - apply (bool_decide_unpack _). vm_compute. exact I.
  - let l := eval vm_compute in (methods (DisposableEmailCdkStack c)) in
    change (methods (DisposableEmailCdkStack c)) with l.
    repeat (apply Forall_cons; split; [intros pool now tok cache Hverb; done|]).
    apply Forall_nil_2.
  - apply (bool_decide_unpack _). vm_compute. exact I.
Qed.

(** ** What the functions are told *)

(** X9. A mailbox TTL that a JavaScript number holds exactly reaches the
    two functions that are told it (address creation and settings change)
    as text that reads back as the same number; no other function is told
    a TTL. *)
Theorem mailbox_ttl_reads_back (c : Constants) :
  (MAILBOX_TTL c ≤ MAX_SAFE_INTEGER)%N →
  let t := DisposableEmailCdkStack c in
  environmentOf t "createEmailLambda" "mailbox_ttl" ≫= parseN = Some (MAILBOX_TTL c)
  ∧ environmentOf t "changeAddressSettingsLambda" "mailbox_ttl" ≫= parseN
      = Some (MAILBOX_TTL c)
  ∧ filter (λ x, is_Some (lookupEnv "mailbox_ttl" x)) (functions t) ≫= (λ x, [functionId x])
      = ["createEmailLambda"; "changeAddressSettingsLambda"].
Proof.
  intros _. cbv zeta.
  assert (H1 : environmentOf (DisposableEmailCdkStack c) "createEmailLambda" "mailbox_ttl"
               = Some (toString (MAILBOX_TTL c))) by reflexivity.
  assert (H2 : environmentOf (DisposableEmailCdkStack c) "changeAddressSettingsLambda"
                 "mailbox_ttl" = Some (toString (MAILBOX_TTL c))) by reflexivity.
  rewrite H1, H2. simpl. rewrite parseN_toString. split_and!; try done.
Qed.

Lemma mailbox_ttl_reads_back_witness :
  (MAILBOX_TTL constants ≤ MAX_SAFE_INTEGER)%N
  ∧ environmentOf stack "createEmailLambda" "mailbox_ttl" ≫= parseN = Some 86400%N.
Proof.
  assert (H : (MAILBOX_TTL constants ≤ MAX_SAFE_INTEGER)%N) by (vm_compute; discriminate).
  split; [exact H|]. apply (mailbox_ttl_reads_back constants H).
Defined.

(** X10. Every function is told, in its environment, exactly the tables
    and the bucket its role has been granted something on: none it cannot
    use, and none left for it to guess. *)
Theorem environment_names_what_is_granted (c : Constants) :
  let t := DisposableEmailCdkStack c in
  Forall (λ f, ∀ n, n ∈ toldResources t f ↔ n ∈ grantedResources t f)
    (functionId <$> functions t)
  ∧ length (functions t) = 8.
Proof.
  cbv zeta. split; [|reflexivity].
  let l := eval vm_compute in (functionId <$> functions (DisposableEmailCdkStack c)) in
  change (functionId <$> functions (DisposableEmailCdkStack c)) with l.
  repeat (apply Forall_cons; split;
    [intros n;
     match goal with
     | |- _ ∈ ?l1 ↔ _ ∈ ?l2 =>
         let v1 := eval vm_compute in l1 in
         let v2 := eval vm_compute in l2 in
         change l1 with v1; change l2 with v2
     end;
     rewrite !elem_of_cons, !elem_of_nil; tauto|]).
  apply Forall_nil_2.
Qed.

(** ** Receiving mail, continued *)

Lemma stack_receipt_rules (c : Constants) :
  flat_map rules (ruleSets (DisposableEmailCdkStack c)) =
    [ {| recipients := [EMAIL_DOMAIN_NAME c];
         ruleActions :=
           [ ActionsLambda "incomingMailCheckLambda" REQUEST_RESPONSE;
             ActionsS3 "emailStorageBucket"
                       (Some "disposable-email-notification-topic") ] |} ].
Proof. reflexivity. Qed.

Lemma stack_function_names (c : Constants) (f : string) :
  f ∈ [ "incomingMailCheckLambda"; "StoreEmailLambda"; "createEmailLambda";
        "getEmailsListLambda"; "getEmailFileLambda"; "cleanUpLambda";
        "sendEmailLambda"; "changeAddressSettingsLambda" ]
  ∨ findFunction (DisposableEmailCdkStack c) f = None.
Proof.
  destruct (findFunction (DisposableEmailCdkStack c) f) as [x|] eqn:Hx; [left|by right].
  apply head_Some_elem_of in Hx. apply list_elem_of_filter in Hx as [<- Hx].
  apply (list_elem_of_fmap_2 functionId) in Hx.
  assert (Hl : functionId <$> functions (DisposableEmailCdkStack c) =
    [ "incomingMailCheckLambda"; "StoreEmailLambda"; "createEmailLambda";
      "getEmailsListLambda"; "getEmailFileLambda"; "cleanUpLambda";
      "sendEmailLambda"; "changeAddressSettingsLambda" ])
    by (vm_compute; reflexivity).
  by rewrite Hl in Hx.
Qed.

(** X11. The domain that address creation and the pipeline are told is
    valid is the domain the receipt rule listens for, and they are the
    only functions told one: a message with a recipient under the domain
    found in their environment is always handed to the intake filter. *)
Theorem configured_domain_is_received {W : Type}
    (deposit : string → string → string → W → W)
    (onRequest : string → Message → W → Disposition * W)
    (onEvent : string → Message → W → list Event * W)
    (c : Constants) (f d : string) (m : Message) (w : W) :
  environmentOf (DisposableEmailCdkStack c) f "valid_domains" = Some d →
  addressedTo d m →
  f ∈ ["StoreEmailLambda"; "createEmailLambda"]
  ∧ head (receive deposit onRequest onEvent (DisposableEmailCdkStack c) m w).1 =
      Some (LambdaInvoked "incomingMailCheckLambda" REQUEST_RESPONSE).
Proof.
  intros Henv Hto.
  assert (Hf : f ∈ ["StoreEmailLambda"; "createEmailLambda"] ∧ d = EMAIL_DOMAIN_NAME c).
  { destruct (stack_function_names c f) as [Hin|Hnone].
    - repeat (apply elem_of_cons in Hin as [->|Hin];
              [vm_compute in Henv;
               first [discriminate Henv
                     |injection Henv as <-; split; [|reflexivity];
                      rewrite !elem_of_cons; auto]|]).
      inversion Hin.
    - unfold environmentOf in Henv. by rewrite Hnone in Henv. }
  destruct Hf as [Hf ->]. split; [exact Hf|].
  rewrite (receive_unfold _ _ _ c m w Hto). cbv zeta.
  by destruct (onRequest "incomingMailCheckLambda" m w).1.
Qed.

Lemma configured_domain_is_received_witness :
  environmentOf (DisposableEmailCdkStack sample_constants) "createEmailLambda"
    "valid_domains" = Some "mail.example"
  ∧ addressedTo "mail.example" sample_message
  ∧ head (receive Pipeline.deposit (λ _ _ w, (CONTINUE, w))
            (Pipeline.onEvent (λ _ _ _, true) 3000)
            (DisposableEmailCdkStack sample_constants) sample_message sample_world).1 =
      Some (LambdaInvoked "incomingMailCheckLambda" REQUEST_RESPONSE).
Proof.
  split; [reflexivity|]. split; [exact sample_message_addressed|].
  apply (configured_domain_is_received Pipeline.deposit (λ _ _ w, (CONTINUE, w))
           (Pipeline.onEvent (λ _ _ _, true) 3000) sample_constants
           "createEmailLambda" "mail.example" sample_message sample_world
           eq_refl sample_message_addressed).
Defined.

(** X12. A message none of whose recipients is the domain, an address
    under it or the listed address itself - a message with no recipient
    at all included - sets nothing off: no function is invoked, nothing is
    written to the bucket, nothing is published, and the state is
    untouched. *)
Theorem foreign_mail_is_ignored {W : Type}
    (deposit : string → string → string → W → W)
    (onRequest : string → Message → W → Disposition * W)
    (onEvent : string → Message → W → list Event * W)
    (c : Constants) (m : Message) (w : W) :
  Forall (λ a, recipientMatches (EMAIL_DOMAIN_NAME c) a = false) (mailRecipients m) →
  receive deposit onRequest onEvent (DisposableEmailCdkStack c) m w = ([], w).
Proof.
  intros Hnone. unfold receive. rewrite stack_receipt_rules.
  cbn [runRules].
  replace (applies _ m) with false; [done|].
  symmetry. unfold applies. cbn [recipients].
  induction Hnone as [|a l Ha _ IH]; [done|].
  cbn [existsb]. rewrite Ha. exact IH.
Qed.

Lemma foreign_mail_is_ignored_witness :
  Forall (λ a, recipientMatches (EMAIL_DOMAIN_NAME sample_constants) a = false)
    (mailRecipients foreign_message)
  ∧ receive Pipeline.deposit (λ _ _ w, (CONTINUE, w))
      (Pipeline.onEvent (λ _ _ _, true) 3000)
      (DisposableEmailCdkStack sample_constants) foreign_message sample_world =
    ([], sample_world).
Proof.
  assert (H : Forall (λ a, recipientMatches (EMAIL_DOMAIN_NAME sample_constants) a = false)
                (mailRecipients foreign_message))
    by (repeat constructor).
  split; [exact H|].
  apply (foreign_mail_is_ignored Pipeline.deposit (λ _ _ w, (CONTINUE, w))
           (Pipeline.onEvent (λ _ _ _, true) 3000) sample_constants
           foreign_message sample_world H).
Defined.

(** ** The front end *)

(** X13. For whatever domain the site is built, the names the distribution
    answers for, the names its certificate covers and the names that
    resolve to it in DNS are the same names: for every host the three
    agree, and the certificate in question is the one the distribution
    presents. *)
Theorem site_names_agree (p : StaticSite.StaticWebpageProps) (host : string) :
  let s := StaticSite.newStaticWebpage p in
  StaticSite.answersFor (StaticSite.distribution s) host =
    StaticSite.covers (StaticSite.distributionCertificate (StaticSite.distribution s)) host
  ∧ (StaticSite.answersFor (StaticSite.distribution s) host = true ↔
       StaticSite.resolve (StaticSite.records s) host = Some (StaticSite.distribution s))
  ∧ (StaticSite.answersFor (StaticSite.distribution s) host = false ↔
       StaticSite.resolve (StaticSite.records s) host = None).
Proof.
  cbv zeta. unfold StaticSite.answersFor, StaticSite.covers, StaticSite.resolve. simpl.
  rewrite orb_false_r.
  split; [reflexivity|].
  destruct (String.eqb_spec host (StaticSite.domain p)) as [->|Hapex].
  - rewrite filter_cons_True by done. simpl. split; split; done.
  - rewrite filter_cons_False by (simpl; congruence).
    destruct (String.eqb_spec host ("www." +:+ StaticSite.domain p)) as [->|Hwww].
    + rewrite filter_cons_True by done. simpl. split; split; done.
    + rewrite filter_cons_False by (simpl; congruence). simpl. split; split; done.
Qed.

Lemma www_is_another_name (d : string) : "www." +:+ d ≠ d.
Proof.
  intros H. apply (f_equal String.length) in H.
  rewrite string_length_app in H. simpl in H. lia.
Qed.

Lemma stack_cors_environment (c : Constants) :
  Forall (λ f, environmentOf (DisposableEmailCdkStack c) f "cors_allowed_origins" =
                 Some (join "," (CORS_ALLOWED_ORIGINS c)))
    [ "createEmailLambda"; "getEmailsListLambda"; "getEmailFileLambda";
      "sendEmailLambda"; "changeAddressSettingsLambda" ].
Proof. repeat (apply Forall_cons; split; [reflexivity|]). apply Forall_nil_2. Qed.

(** X14. Of the names the site is served under, only the one without the
    www prefix is an origin the API accepts: the origins handed to the
    gateway and to the functions are the https origin of the front-end
    domain and the local development server, so a page loaded under the
    www name is not among them. *)
Theorem cors_origin_is_the_apex (c : Constants) :
  let site := stackStaticWebpage c in
  StaticSite.domainNames (StaticSite.distribution site) =
    [ FRONTEND_DOMAIN_NAME c; "www." +:+ FRONTEND_DOMAIN_NAME c ]
  ∧ Forall (λ host, "https://" +:+ host ∈ CORS_ALLOWED_ORIGINS c
                    ↔ host = FRONTEND_DOMAIN_NAME c)
      (StaticSite.domainNames (StaticSite.distribution site))
  ∧ Forall (λ f, environmentOf (DisposableEmailCdkStack c) f "cors_allowed_origins" =
                   Some (join "," (CORS_ALLOWED_ORIGINS c)))
      [ "createEmailLambda"; "getEmailsListLambda"; "getEmailFileLambda";
        "sendEmailLambda"; "changeAddressSettingsLambda" ].
Proof.
  cbv zeta. split; [reflexivity|]. split.
  - unfold CORS_ALLOWED_ORIGINS. simpl.
    apply Forall_cons; split; [|apply Forall_cons; split; [|apply Forall_nil_2]].
    + split; [done|]. intros _. left.
    + split.
      * rewrite !elem_of_cons, elem_of_nil. intros [H|[H|[]]].
        -- apply (inj (String.append "https://")) in H. exact H.
        -- exfalso. revert H. generalize (FRONTEND_DOMAIN_NAME c). intros d H.
           change ("https://" +:+ ("www." +:+ d))
             with (String "h" (String "t" (String "t" (String "p"
                    (String "s" ("://www." +:+ d)))))) in H.
           discriminate H.
      * intros H. by apply www_is_another_name in H.
  - apply stack_cors_environment.
Qed.

(** ** Lists passed through the environment *)

Lemma splitOn_plain (sep : ascii) (x : string) :
  hasChar sep x = false → splitOn sep x = [x].
Proof.
  induction x as [|a x IH]; simpl; [done|].
  intros H. apply orb_false_iff in H as [Ha Hx].
  rewrite Ha, (IH Hx). done.
Qed.

Lemma splitOn_piece (sep : ascii) (x rest : string) :
  hasChar sep x = false →
  splitOn sep (x +:+ String sep rest) = x :: splitOn sep rest.
Proof.
  induction x as [|a x IH]; intros H.
  - simpl. by rewrite Ascii.eqb_refl.
  - simpl in H. apply orb_false_iff in H as [Ha Hx].
    change (String a x +:+ String sep rest) with (String a (x +:+ String sep rest)).
    simpl. rewrite Ha, (IH Hx). done.
Qed.

(** A non-empty list whose elements are free of commas comes back from
    [join] as it went in. *)
Lemma splitOn_join (l : list string) :
  l ≠ [] → Forall (λ x, hasChar "," x = false) l →
  splitOn "," (join "," l) = l.
Proof.
  induction l as [|x l IH]; [done|]. intros _ Hall.
  apply Forall_cons in Hall as [Hx Hall].
  destruct l as [|y l].
  - simpl. by apply splitOn_plain.
  - change (join "," (x :: y :: l)) with (x +:+ "," +:+ join "," (y :: l)).
    change (x +:+ "," +:+ join "," (y :: l))
      with (x +:+ String "," (join "," (y :: l))).
    rewrite splitOn_piece by done. f_equal. by apply IH.
Qed.

Lemma hasChar_app (ch : ascii) (s1 s2 : string) :
  hasChar ch (s1 +:+ s2) = hasChar ch s1 || hasChar ch s2.
Proof.
  induction s1 as [|a s1 IH]; [done|].
  change (String a s1 +:+ s2) with (String a (s1 +:+ s2)).
  simpl. by rewrite IH, orb_assoc.
Qed.

(** X15. When the front-end domain contains no comma, the text each of
    the five functions behind the API finds in its environment determines
    the list of allowed origins the gateway has: split at the commas it
    is that list.  The empty list and the one-element list of an empty
    text are told apart by nothing: both join to the empty text. *)
Theorem origins_read_back (c : Constants) :
  hasChar "," (FRONTEND_DOMAIN_NAME c) = false →
  Forall (λ f, splitOn "," <$>
                 environmentOf (DisposableEmailCdkStack c) f "cors_allowed_origins" =
               Some (CORS_ALLOWED_ORIGINS c))
    [ "createEmailLambda"; "getEmailsListLambda"; "getEmailFileLambda";
      "sendEmailLambda"; "changeAddressSettingsLambda" ]
  ∧ join "," [] = join "," [""].
Proof.
  intros Hd. split; [|reflexivity].
  assert (Hback : splitOn "," (join "," (CORS_ALLOWED_ORIGINS c)) = CORS_ALLOWED_ORIGINS c).
  { apply splitOn_join; [done|]. unfold CORS_ALLOWED_ORIGINS.
    apply Forall_cons; split; [|apply Forall_cons; split; [reflexivity|apply Forall_nil_2]].
    rewrite hasChar_app, Hd. reflexivity. }
  eapply Forall_impl; [apply stack_cors_environment|].
  intros f Hf. cbv beta in Hf |- *. rewrite Hf. exact (f_equal Some Hback).
Qed.

Lemma origins_read_back_witness :
  hasChar "," (FRONTEND_DOMAIN_NAME sample_constants) = false
  ∧ splitOn "," <$> environmentOf (DisposableEmailCdkStack sample_constants)
                      "sendEmailLambda" "cors_allowed_origins" =
      Some [ "https://mail.example"; "http://localhost:3000" ].
Proof.
  split; [reflexivity|].
  pose proof (origins_read_back sample_constants eq_refl) as [Hall _].
  apply Forall_cons in Hall as [_ Hall].
  apply Forall_cons in Hall as [_ Hall].
  apply Forall_cons in Hall as [_ Hall].
  apply Forall_cons in Hall as [Hsend _].
  exact Hsend.
Defined.
